(** * The threaded chat server (threaded.cpp): sessions, handshake, reaper

    A shallow embedding of [ClientSession] and [ChatServer] from
    [threaded.cpp].  Thread interleavings are modelled by explicit program
    counters and a scheduler: every atomic action of the source
    ([std::atomic::fetch_or], a critical section entered through a
    [std::mutex], a condition-variable notification, a socket write) is one
    step of a machine, and a schedule lists which actor moves next.
    [std::atomic<int>] operations use the default sequentially consistent
    ordering, so an interleaving of atomic steps is a faithful account of
    what the two units of a session can observe. *)

From Stdlib Require Import ZArith String Ascii List Bool Lia.
From stdpp Require Import gmap strings list fin_maps.

Local Open Scope string_scope.
Local Open Scope list_scope.
Local Open Scope Z_scope.

(** ** Strings used by the server *)

Definition nl : string := String (ascii_of_nat 10) EmptyString.

(** [needle] is a prefix of [hay]. *)
Fixpoint starts_with (needle hay : string) : bool :=
  match needle, hay with
  | EmptyString, _ => true
  | String a n', String b h' => if Ascii.eqb a b then starts_with n' h' else false
  | String _ _, EmptyString => false
  end.

(** [needle] occurs somewhere in [hay]. *)
Fixpoint contains (needle hay : string) : bool :=
  starts_with needle hay ||
  match hay with
  | EmptyString => false
  | String _ h' => contains needle h'
  end.

(** ** State flags of a session (the anonymous enum of [ClientSession]) *)

Definition ALL_RUNNING : Z := 0.
Definition READER_TERMINATED : Z := 1.
Definition WRITER_TERMINATED : Z := 2.
Definition READER_TERMINATION_REQUESTED : Z := 4.

(** The C++ test [bits & flag] used as a condition. *)
Definition has (bits flag : Z) : bool := negb (Z.land bits flag =? 0).

(** ** ClientSession *)

Record ClientSession := mkSession {
  _name : string;
  _nameValid : bool;
  _messages : list string;
  _state : Z
}.

(** The constructor: no name, empty queue, [ALL_RUNNING]. *)
Definition newSession : ClientSession :=
  {| _name := EmptyString; _nameValid := false; _messages := []; _state := ALL_RUNNING |}.

Definition getName (s : ClientSession) : option string :=
  if _nameValid s then Some (_name s) else None.

(** [setName] asserts that no name was set before; [None] is the failed
    assertion. *)
Definition setName (name : string) (s : ClientSession) : option ClientSession :=
  if _nameValid s then None
  else Some {| _name := name; _nameValid := true;
               _messages := _messages s; _state := _state s |}.

Definition with_state (v : Z) (s : ClientSession) : ClientSession :=
  {| _name := _name s; _nameValid := _nameValid s;
     _messages := _messages s; _state := v |}.

Definition with_messages (q : list string) (s : ClientSession) : ClientSession :=
  {| _name := _name s; _nameValid := _nameValid s;
     _messages := q; _state := _state s |}.

(** [_state.fetch_or(bits)]: returns the old value, stores the disjunction. *)
Definition fetch_or (bits : Z) (s : ClientSession) : Z * ClientSession :=
  (_state s, with_state (Z.lor (_state s) bits) s).

(** [sendMessage]: [_messages.push_back(msg)] under the queue mutex.  The
    notification of the writer is an effect of the caller's step in the
    machine below. *)
Definition sendMessage (msg : string) (s : ClientSession) : ClientSession :=
  with_messages (_messages s ++ [msg]) s.

(** The predicate the writer waits for in [getMessage]. *)
Definition writer_may_proceed (s : ClientSession) : bool :=
  negb (_state s =? ALL_RUNNING) || negb (bool_decide (_messages s = [])).

(** What [getMessage] does once the wait is over. *)
Inductive GetMessage :=
| GotNull                                   (* a null pointer: leave the loop *)
| GotMessage (msg : string) (s : ClientSession)
| FrontOfEmpty.                             (* front() of an empty deque *)

Definition getMessage (s : ClientSession) : GetMessage :=
  if negb (_state s =? ALL_RUNNING) then GotNull
  else match _messages s with
       | msg :: rest => GotMessage msg (with_messages rest s)
       | [] => FrontOfEmpty
       end.

(** The name as the catch blocks of the two units print it. *)
Definition formattedName (s : ClientSession) : string :=
  match getName s with
  | Some name => "'" +:+ name +:+ "'"
  | None => "(null)"
  end.

Definition reader_exception_line (s : ClientSession) (what : string) : string :=
  "Client " +:+ formattedName s +:+ " reader thread exeption: " +:+ what +:+ nl.

Definition writer_exception_line (s : ClientSession) (what : string) : string :=
  "Client " +:+ formattedName s +:+ " writer thread exeption: " +:+ what +:+ nl.

(** ** The session machine

    One session with its two units, the server thread that calls
    [terminate] (calls are serialised by [_clientsMutex] in
    [ChatServer::shutdown]), the other sessions that call [sendMessage]
    while broadcasting, and the reaper, which joins the reader thread in
    [waitToFinish] once the session is in the reclamation queue. *)

Module Machine.

Inductive Unit_ := ReaderUnit | WriterUnit.

(** What a step does to the world outside the session object. *)
Inductive Effect :=
| ERemoveClient (by_unit : Unit_)   (* _server.removeClient(shared_from_this()) *)
| ENotifyWriter                     (* _writerCondition.notify_one() *)
| ESignalReader                     (* pthread_kill on the handle of the reader thread *)
| ESignalStale                      (* pthread_kill on the handle of a joined thread *)
| ESocketWrite (msg : string)       (* boost::asio::write of a message *)
| EStdout (line : string).          (* a line on std::cout *)

(** Where the reader unit is.  Its loops (login, then lines) do not touch
    the session's own state or queue, so they are one place, [RLoop]. *)
Inductive ReaderPc :=
| RLoop                 (* inside the try block *)
| RShutdown             (* onReaderShutdown entered *)
| RFetched (old : Z)    (* fetch_or(READER_TERMINATED) returned old *)
| RDone (old : Z).      (* readerThread returned *)

Inductive WriterPc :=
| WWait                 (* getMessage: about to take the mutex and test the predicate *)
| WEnterBlock           (* predicate was false, about to block *)
| WBlocked              (* blocked on _writerCondition, mutex released *)
| WWoken                (* predicate was true, mutex held *)
| WWrite (msg : string) (* getMessage returned msg *)
| WShutdown             (* onWriterShutdown entered *)
| WFetched (old : Z)    (* fetch_or(WRITER_TERMINATED) returned old *)
| WKill (old : Z)       (* interruptReader: flag set, signal not yet sent *)
| WDone (old : Z)       (* writerThread returned *)
| WUndefined.           (* front() of an empty deque *)

Inductive ServerPc :=
| SIdle                 (* not inside terminate() *)
| SKill.                (* interruptReader: flag set, signal not yet sent *)

Record Config := mkConfig {
  sess : ClientSession;
  rpc : ReaderPc;
  wpc : WriterPc;
  spc : ServerPc;
  log : list Effect;         (* oldest first *)
  joined : bool              (* the reaper's _readerThread.join() has returned *)
}.

(** Who moves next, together with what the environment decides. *)
Inductive Actor :=
| Reader                        (* next step of the reader; at RLoop: the loop ends normally *)
| ReaderThrows (what : string)  (* at RLoop: a std::exception leaves the try block *)
| ReaderNamed (name : string)   (* at RLoop: setClientName succeeded, setName(name) *)
| Writer                        (* next step of the writer *)
| WriterThrows (what : string)  (* at WWrite: boost::asio::write throws *)
| Spurious                      (* a spurious wake-up of the condition variable *)
| Terminator                    (* next step of terminate() *)
| Sender (msg : string)         (* another thread calls sendMessage(msg) *)
| JoinReader.                   (* the reaper, in waitToFinish: _readerThread.join() *)

Definition init : Config :=
  {| sess := newSession; rpc := RLoop; wpc := WWait; spc := SIdle; log := [];
     joined := false |}.

Definition set_sess (s : ClientSession) (c : Config) : Config :=
  {| sess := s; rpc := rpc c; wpc := wpc c; spc := spc c; log := log c;
     joined := joined c |}.
Definition set_rpc (p : ReaderPc) (c : Config) : Config :=
  {| sess := sess c; rpc := p; wpc := wpc c; spc := spc c; log := log c;
     joined := joined c |}.
Definition set_wpc (p : WriterPc) (c : Config) : Config :=
  {| sess := sess c; rpc := rpc c; wpc := p; spc := spc c; log := log c;
     joined := joined c |}.
Definition set_spc (p : ServerPc) (c : Config) : Config :=
  {| sess := sess c; rpc := rpc c; wpc := wpc c; spc := p; log := log c;
     joined := joined c |}.
Definition emit (e : Effect) (c : Config) : Config :=
  {| sess := sess c; rpc := rpc c; wpc := wpc c; spc := spc c; log := log c ++ [e];
     joined := joined c |}.
Definition set_joined (c : Config) : Config :=
  {| sess := sess c; rpc := rpc c; wpc := wpc c; spc := spc c; log := log c;
     joined := true |}.

(** The entries of the reclamation queue that stem from this session, by
    the unit that made the call. *)
Fixpoint removals (l : list Effect) : list Unit_ :=
  match l with
  | [] => []
  | ERemoveClient u :: l' => u :: removals l'
  | _ :: l' => removals l'
  end.

Definition reader_done (c : Config) : bool :=
  match rpc c with RDone _ => true | _ => false end.

(** [pthread_kill(_readerThread.native_handle(), SIGUSR1)] in
    [interruptReader].  The handle names the reader thread, running or
    returned, until the reaper has joined it; after the join it names no
    thread, and what the call does then is undefined.  The effect records
    which of the two handles the call was made on. *)
Definition signal_reader (c : Config) : Config :=
  emit (if joined c then ESignalStale else ESignalReader) c.

(** [notify_one]: wakes the writer if it is blocked, is lost otherwise. *)
Definition notify_writer (c : Config) : Config :=
  emit ENotifyWriter
    (match wpc c with WBlocked => set_wpc WWait c | _ => c end).

(** The writer holds [_messagesMutex] between the test of the predicate
    and the return of [getMessage], or until it blocks. *)
Definition writer_holds_mutex (c : Config) : bool :=
  match wpc c with WWoken | WEnterBlock => true | _ => false end.

Definition step_reader (c : Config) : Config :=
  match rpc c with
  | RLoop => set_rpc RShutdown c
  | RShutdown =>
      let (old, s) := fetch_or READER_TERMINATED (sess c) in
      set_rpc (RFetched old) (set_sess s c)
  | RFetched old =>
      if has old WRITER_TERMINATED
      then set_rpc (RDone old) (emit (ERemoveClient ReaderUnit) c)
      else set_rpc (RDone old) (notify_writer c)
  | RDone _ => c
  end.

Definition step_writer (c : Config) : Config :=
  match wpc c with
  | WWait =>
      if writer_may_proceed (sess c) then set_wpc WWoken c
      else set_wpc WEnterBlock c
  | WEnterBlock => set_wpc WBlocked c
  | WBlocked => c
  | WWoken =>
      match getMessage (sess c) with
      | GotNull => set_wpc WShutdown c
      | GotMessage msg s => set_wpc (WWrite msg) (set_sess s c)
      | FrontOfEmpty => set_wpc WUndefined c
      end
  | WWrite msg => set_wpc WWait (emit (ESocketWrite msg) c)
  | WShutdown =>
      let (old, s) := fetch_or WRITER_TERMINATED (sess c) in
      set_wpc (WFetched old) (set_sess s c)
  | WFetched old =>
      if has old READER_TERMINATED
      then set_wpc (WDone old) (emit (ERemoveClient WriterUnit) c)
      else let (_, s) := fetch_or READER_TERMINATION_REQUESTED (sess c) in
           set_wpc (WKill old) (set_sess s c)
  | WKill old => set_wpc (WDone old) (signal_reader c)
  | WDone _ => c
  | WUndefined => c
  end.

(** [terminate] is [interruptReader]: set the flag, then [pthread_kill]
    on the reader's handle. *)
Definition step_terminator (c : Config) : Config :=
  match spc c with
  | SIdle =>
      let (_, s) := fetch_or READER_TERMINATION_REQUESTED (sess c) in
      set_spc SKill (set_sess s c)
  | SKill => set_spc SIdle (signal_reader c)
  end.

(** [waitToFinish], called by the reaper on a session it took from the
    reclamation queue, so after a [removeClient] of this session, and
    without [_clientsMutex]: [_readerThread.join()] returns once
    [readerThread] has returned.  The join of the writer thread that
    follows touches nothing the machine looks at. *)
Definition step_join (c : Config) : Config :=
  match removals (log c) with
  | [] => c
  | _ :: _ => if reader_done c then set_joined c else c
  end.

Definition step (a : Actor) (c : Config) : Config :=
  match a with
  | Reader => step_reader c
  | ReaderThrows what =>
      match rpc c with
      | RLoop => set_rpc RShutdown (emit (EStdout (reader_exception_line (sess c) what)) c)
      | _ => c
      end
  | ReaderNamed name =>
      match rpc c, setName name (sess c) with
      | RLoop, Some s => set_sess s c
      | _, _ => c
      end
  | Writer => step_writer c
  | WriterThrows what =>
      match wpc c with
      | WWrite _ => set_wpc WShutdown (emit (EStdout (writer_exception_line (sess c) what)) c)
      | _ => c
      end
  | Spurious =>
      match wpc c with
      | WBlocked => set_wpc WWait c
      | _ => c
      end
  | Terminator => step_terminator c
  | Sender msg =>
      if writer_holds_mutex c then c
      else notify_writer (set_sess (sendMessage msg (sess c)) c)
  | JoinReader => step_join c
  end.

Definition exec (sched : list Actor) (c : Config) : Config :=
  fold_left (fun c a => step a c) sched c.

(** The messages written to the socket, oldest first. *)
Fixpoint written (l : list Effect) : list string :=
  match l with
  | [] => []
  | ESocketWrite m :: l' => m :: written l'
  | _ :: l' => written l'
  end.

Definition reader_old (c : Config) : option Z :=
  match rpc c with RFetched o | RDone o => Some o | _ => None end.

Definition writer_old (c : Config) : option Z :=
  match wpc c with WFetched o | WKill o | WDone o => Some o | _ => None end.

Definition writer_done (c : Config) : bool :=
  match wpc c with WDone _ => true | _ => false end.

Definition quiesced (c : Config) : bool := reader_done c && writer_done c.

Definition is_some {A} (o : option A) : bool :=
  match o with Some _ => true | None => false end.

(** The unit [u] found the other unit's bit in the value its own
    [fetch_or] returned. *)
Definition saw_other_done (c : Config) (u : Unit_) : bool :=
  match u with
  | ReaderUnit =>
      match reader_old c with Some o => has o WRITER_TERMINATED | None => false end
  | WriterUnit =>
      match writer_old c with Some o => has o READER_TERMINATED | None => false end
  end.

Definition other (u : Unit_) : Unit_ :=
  match u with ReaderUnit => WriterUnit | WriterUnit => ReaderUnit end.

Definition reader_enqueued (c : Config) : bool :=
  match rpc c with RDone o => has o WRITER_TERMINATED | _ => false end.

Definition writer_enqueued (c : Config) : bool :=
  match wpc c with WDone o => has o READER_TERMINATED | _ => false end.

(** The invariant of the handshake: each done bit is set exactly when its
    unit is past its [fetch_or]; of two units past it exactly one saw the
    other's bit, a single one saw none; the reclamation queue holds what
    the finished units put there. *)
Record handshake_inv (c : Config) : Prop := mkInv {
  inv_rbit : has (_state (sess c)) READER_TERMINATED = is_some (reader_old c);
  inv_wbit : has (_state (sess c)) WRITER_TERMINATED = is_some (writer_old c);
  inv_seen :
    match reader_old c, writer_old c with
    | Some r, Some w => has r WRITER_TERMINATED = negb (has w READER_TERMINATED)
    | Some r, None => has r WRITER_TERMINATED = false
    | None, Some w => has w READER_TERMINATED = false
    | None, None => True
    end;
  inv_kill : forall o, wpc c = WKill o -> has o READER_TERMINATED = false;
  inv_removals :
    removals (log c) =
      (if reader_enqueued c then [ReaderUnit] else []) ++
      (if writer_enqueued c then [WriterUnit] else [])
}.

(** The writer never takes the front of an empty queue: when it has passed
    the wait, a flag is set or a message is there, and neither changes
    while it holds the mutex. *)
Definition writer_inv (c : Config) : Prop :=
  match wpc c with
  | WWoken => writer_may_proceed (sess c) = true
  | WUndefined => False
  | _ => True
  end.

(** How many steps each unit is away from its return. *)
Definition reader_rank (p : ReaderPc) : nat :=
  match p with RLoop => 3 | RShutdown => 2 | RFetched _ => 1 | RDone _ => 0 end.

Definition writer_rank (p : WriterPc) : nat :=
  match p with
  | WEnterBlock => 7 | WBlocked => 6 | WWrite _ => 6 | WWait => 5 | WWoken => 4
  | WShutdown => 3 | WFetched _ => 2 | WKill _ => 1 | WDone _ => 0
  | WUndefined => 8
  end.

(** A schedule that lets a woken writer run [n] steps. *)
Fixpoint draining (n : nat) : list Actor :=
  match n with
  | O => []
  | S n' => Spurious :: Writer :: draining n'
  end.

(** A schedule that completes both units from wherever they are. *)
Definition finishing : list Actor := [Reader; Reader; Reader] ++ draining 7.

(** A schedule on which the writer finishes first. *)
Definition writer_first : list Actor :=
  [Sender "hi"; Writer; Writer; Writer; Terminator; Writer; Writer;
   Writer; Writer; Writer; Reader; Reader; Reader].

(** The writer is past its loop: [getMessage] returned null or a write
    threw, and [onWriterShutdown] is entered or over. *)
Definition writer_left (c : Config) : bool :=
  match wpc c with
  | WShutdown | WFetched _ | WKill _ | WDone _ => true
  | _ => false
  end.

(** The messages the [sendMessage] calls of a schedule carry. *)
Fixpoint sends (sched : list Actor) : list string :=
  match sched with
  | [] => []
  | Sender msg :: rest => msg :: sends rest
  | _ :: rest => sends rest
  end.

(** A message is queued, then termination is requested, then the writer
    runs until it returns. *)
Definition queued_then_terminated : list Actor :=
  [Sender "hello"; Terminator; Terminator;
   Writer; Writer; Writer; Writer; Writer].

(** The writer blocks on the empty queue, then [terminate] runs to its
    end, then the writer is given the processor twice. *)
Definition terminated_while_blocked : list Actor :=
  [Writer; Writer; Terminator; Terminator; Writer; Writer].

(** [terminate()] from entry to return. *)
Definition terminate_call : list Actor := [Terminator; Terminator].

(** [n] calls of [terminate()], one after the other. *)
Fixpoint terminate_calls (n : nat) : list Actor :=
  match n with
  | O => []
  | S n' => Terminator :: Terminator :: terminate_calls n'
  end.

(** Both units return, then the reaper joins the reader thread. *)
Definition joined_session : list Actor := finishing ++ [JoinReader].

(** ... and [shutdown], which holds [_clientsMutex] and so still finds the
    session in the live-set, calls [terminate] on it. *)
Definition terminated_after_join : list Actor := joined_session ++ terminate_call.

(** The handle is stale only for a session that was handed to the reaper
    and whose reader has returned. *)
Definition joined_inv (c : Config) : Prop :=
  joined c = true -> reader_done c = true /\ removals (log c) <> [].

(** A log without the lines on standard output. *)
Fixpoint silent (l : list Effect) : list Effect :=
  match l with
  | [] => []
  | EStdout _ :: l' => silent l'
  | e :: l' => e :: silent l'
  end.

(** Two configurations that differ at most in what was printed. *)
Definition same_but_stdout (c1 c2 : Config) : Prop :=
  sess c1 = sess c2 /\ rpc c1 = rpc c2 /\ wpc c1 = wpc c2 /\ spc c1 = spc c2 /\
  joined c1 = joined c2 /\ silent (log c1) = silent (log c2).

(** The reader's loop ends by an exception between the writer's test of
    the wait predicate and the moment the writer blocks. *)
Definition throw_then_missed_wakeup : list Actor :=
  [Writer; ReaderThrows "End of file"; Reader; Reader; Writer].

(** The writer is given the processor [n] times. *)
Fixpoint writer_runs (n : nat) : list Actor :=
  match n with
  | O => []
  | S n' => Writer :: writer_runs n'
  end.

(** The reader's loop ends by an exception, [onReaderShutdown] runs, then
    the writer runs; nobody sends, no wait wakes by itself. *)
Definition reader_throws_then_units_run (what : string) : list Actor :=
  ReaderThrows what :: Reader :: Reader :: writer_runs 6.

(** A write throws, [onWriterShutdown] runs, then the reader's loop ends
    and [onReaderShutdown] runs. *)
Definition writer_throws_then_units_run (what : string) : list Actor :=
  WriterThrows what :: writer_runs 3 ++ [Reader; Reader; Reader].


End Machine.

(** ** ChatServer

    Sessions live on the heap and are held through [std::shared_ptr]; a
    session is known by its address, and the live-set, the name map and
    the reclamation queue all refer to the one object in [heap].  The keys
    of [_namesToClients] are pointers to the names, compared through
    [PtrLess] by the strings they point to; the map is therefore keyed by
    the string.  [std::map] iterates in key order; where the model
    iterates ([broadcast]) every receiver gets its own [push_back], so the
    order of the iteration does not show in the result. *)

Record ChatServer := mkServer {
  heap : gmap nat ClientSession;
  _clients : gset nat;
  _namesToClients : gmap string nat;
  _clientsToRemove : list nat;
  _isTerminating : bool;
  cout : list string
}.

(** The constructor: nothing registered, not terminating. *)
Definition newServer : ChatServer :=
  {| heap := ∅; _clients := ∅; _namesToClients := ∅;
     _clientsToRemove := []; _isTerminating := false; cout := [] |}.

Definition with_heap (h : gmap nat ClientSession) (srv : ChatServer) : ChatServer :=
  {| heap := h; _clients := _clients srv; _namesToClients := _namesToClients srv;
     _clientsToRemove := _clientsToRemove srv; _isTerminating := _isTerminating srv;
     cout := cout srv |}.

Definition with_clients (cs : gset nat) (srv : ChatServer) : ChatServer :=
  {| heap := heap srv; _clients := cs; _namesToClients := _namesToClients srv;
     _clientsToRemove := _clientsToRemove srv; _isTerminating := _isTerminating srv;
     cout := cout srv |}.

Definition with_names (m : gmap string nat) (srv : ChatServer) : ChatServer :=
  {| heap := heap srv; _clients := _clients srv; _namesToClients := m;
     _clientsToRemove := _clientsToRemove srv; _isTerminating := _isTerminating srv;
     cout := cout srv |}.

Definition with_queue (q : list nat) (srv : ChatServer) : ChatServer :=
  {| heap := heap srv; _clients := _clients srv; _namesToClients := _namesToClients srv;
     _clientsToRemove := q; _isTerminating := _isTerminating srv;
     cout := cout srv |}.

Definition with_terminating (b : bool) (srv : ChatServer) : ChatServer :=
  {| heap := heap srv; _clients := _clients srv; _namesToClients := _namesToClients srv;
     _clientsToRemove := _clientsToRemove srv; _isTerminating := b;
     cout := cout srv |}.

Definition print (line : string) (srv : ChatServer) : ChatServer :=
  {| heap := heap srv; _clients := _clients srv; _namesToClients := _namesToClients srv;
     _clientsToRemove := _clientsToRemove srv; _isTerminating := _isTerminating srv;
     cout := cout srv ++ [line] |}.

(** What [run] does with an accepted connection while the server is not
    terminating: the new session enters the live-set. *)
Definition enter_client (client : nat) (srv : ChatServer) : ChatServer :=
  with_clients ({[client]} ∪ _clients srv)
    (with_heap (<[client := newSession]> (heap srv)) srv).

(** [setClientName]; [None] is a failed assertion (the session has a name
    already). *)
Definition setClientName (client : nat) (name : string) (srv : ChatServer)
  : option (bool * ChatServer) :=
  match _namesToClients srv !! name with
  | None =>
      match heap srv !! client with
      | Some s =>
          match setName name s with
          | Some s' =>
              Some (true,
                    with_names (<[name := client]> (_namesToClients srv))
                      (with_heap (<[client := s']> (heap srv)) srv))
          | None => None
          end
      | None => None
      end
  | Some _ => Some (false, srv)
  end.

(** The snapshot [broadcast] takes of the name map. *)
Definition receivers (srv : ChatServer) : list nat :=
  (map_to_list (_namesToClients srv)).*2.

Definition deliver (sender : nat) (msg : string)
    (h : gmap nat ClientSession) (receiver : nat) : gmap nat ClientSession :=
  if decide (receiver = sender) then h else alter (sendMessage msg) receiver h.

Definition broadcast (sender : nat) (msg : string) (srv : ChatServer) : ChatServer :=
  with_heap (foldl (deliver sender msg) (heap srv) (receivers srv)) srv.

Definition removeClient (client : nat) (srv : ChatServer) : ChatServer :=
  with_queue (_clientsToRemove srv ++ [client]) srv.

(** Every registered name is the name of the session it maps to. *)
Definition registry_ok (srv : ChatServer) : Prop :=
  map_Forall (fun name client => heap srv !! client ≫= getName = Some name)
             (_namesToClients srv).

(** [client] attempts [name] first, then each of [others] does. *)
Fixpoint registerAll (name : string) (clients : list nat) (srv : ChatServer)
  : option (list bool * ChatServer) :=
  match clients with
  | [] => Some ([], srv)
  | client :: rest =>
      match setClientName client name srv with
      | Some (b, srv') =>
          match registerAll name rest srv' with
          | Some (bs, srv'') => Some (b :: bs, srv'')
          | None => None
          end
      | None => None
      end
  end.

(** ** The login loop of the reader unit *)

Definition prompt : string := "What's your name?" +:+ nl.
Definition welcome (name : string) : string :=
  "Welcome to the chat, " +:+ name +:+ "!" +:+ nl.
Definition name_taken (name : string) : string :=
  "Name '" +:+ name +:+ "' is already taken, invent another one." +:+ nl.

Inductive LoginEnd :=
| LoggedIn            (* loginSuccessfull is true *)
| NotRunning          (* the loop test found _state != ALL_RUNNING *)
| ReadThrew           (* readLineFromClient threw: the input is over *)
| AssertionFailed.

Record LoginResult := mkLogin {
  socket_out : list string;   (* what was written to the socket *)
  login_end : LoginEnd;
  server_after : ChatServer;
  unread : list string        (* lines the loop did not read *)
}.

(** [observe k] is the value of [_state] at the [k]-th test of the loop
    condition; [lines] is what the client sends. *)
Fixpoint loginLoop (observe : nat -> Z) (k : nat) (lines : list string)
    (self : nat) (srv : ChatServer) {struct lines} : LoginResult :=
  if negb (observe k =? ALL_RUNNING) then mkLogin [] NotRunning srv lines
  else
    match lines with
    | [] => mkLogin [prompt] ReadThrew srv []
    | name :: rest =>
        match setClientName self name srv with
        | None => mkLogin [prompt] AssertionFailed srv rest
        | Some (true, srv') => mkLogin [prompt; welcome name] LoggedIn srv' rest
        | Some (false, srv') =>
            let r := loginLoop observe (S k) rest self srv' in
            mkLogin (prompt :: name_taken name :: socket_out r)
                    (login_end r) (server_after r) (unread r)
        end
    end.

(** A server with two live sessions, the first one named alice. *)
Definition alice_and_guest : ChatServer :=
  match setClientName 1 "alice" (enter_client 2 (enter_client 1 newServer)) with
  | Some (_, srv) => srv
  | None => newServer
  end.

(** Two live sessions with names. *)
Definition alice_and_bob : ChatServer :=
  match setClientName 2 "bob" alice_and_guest with
  | Some (_, srv) => srv
  | None => newServer
  end.

(** The state stays [ALL_RUNNING] for the first test, then termination is
    requested. *)
Definition terminated_after_first (k : nat) : Z :=
  match k with O => ALL_RUNNING | _ => READER_TERMINATION_REQUESTED end.

Definition always_running (k : nat) : Z := ALL_RUNNING.

(** ** The reaper *)

Inductive ReaperEnd :=
| ReaperWaits                 (* blocked in getClientToRemove: the queue is empty *)
| ReaperReturned              (* break: terminating and the live-set is empty *)
| ReaperCaught (what : string)(* the catch block ran; reaperThread returned *)
| ReaperAborted.              (* a failed assertion *)

Inductive WaitResult := Joined | JoinThrew (what : string) | AssertFailed.

(** [waitToFinish]: the two assertions, then the two joins.  [join_throws]
    says for which session a [std::thread::join] throws, and what. *)
Definition waitToFinish (join_throws : nat -> option string)
    (client : nat) (s : ClientSession) : WaitResult :=
  if negb (has (_state s) READER_TERMINATED) then AssertFailed
  else if negb (has (_state s) WRITER_TERMINATED) then AssertFailed
  else match join_throws client with
       | Some what => JoinThrew what
       | None => Joined
       end.

(** [_namesToClients.erase(client->getName())]; a null key matches no
    entry. *)
Definition erase_name (name : option string) (m : gmap string nat) : gmap string nat :=
  match name with
  | Some n => delete n m
  | None => m
  end.

Definition reaper_exception_line (what : string) : string :=
  "Reaper thread exception: " +:+ what +:+ nl.

(** The loop of [reaperThread] on the queue as it is, nothing being
    enqueued meanwhile.  The [try] block encloses the whole loop. *)
Fixpoint reaperLoop (join_throws : nat -> option string)
    (queue : list nat) (srv : ChatServer) : ReaperEnd * ChatServer :=
  match queue with
  | [] => (ReaperWaits, with_queue [] srv)
  | client :: rest =>
      let srv1 := with_queue rest srv in
      match heap srv1 !! client with
      | None => (ReaperAborted, srv1)
      | Some s =>
          match waitToFinish join_throws client s with
          | AssertFailed => (ReaperAborted, srv1)
          | JoinThrew what =>
              (ReaperCaught what, print (reaper_exception_line what) srv1)
          | Joined =>
              let srv2 :=
                with_names (erase_name (getName s) (_namesToClients srv1)) srv1 in
              if bool_decide (client ∈ _clients srv2) then
                let srv3 := with_clients (_clients srv2 ∖ {[client]}) srv2 in
                if _isTerminating srv3 && bool_decide (_clients srv3 = ∅)
                then (ReaperReturned, srv3)
                else reaperLoop join_throws rest srv3
              else (ReaperAborted, srv2)
          end
      end
  end.

Definition reaperThread (join_throws : nat -> option string) (srv : ChatServer)
  : ReaperEnd * ChatServer :=
  reaperLoop join_throws (_clientsToRemove srv) srv.

(** Both units of [client] have returned and the second one has called
    [removeClient]. *)
Definition finished (client : nat) (srv : ChatServer) : ChatServer :=
  removeClient client
    (with_heap (alter (with_state (Z.lor READER_TERMINATED WRITER_TERMINATED))
                      client (heap srv)) srv).

(** Alice and bob have both finished, alice first. *)
Definition two_to_reap : ChatServer := finished 2 (finished 1 alice_and_bob).

(** The join of the first session throws. *)
Definition first_join_throws (client : nat) : option string :=
  if (client =? 1)%nat then Some "Resource deadlock avoided" else None.

Definition no_join_throws (client : nat) : option string := None.

(** ** main *)

Inductive Try (A : Type) :=
| Ok (a : A)
| Threw (what : string).    (* a std::exception with this what() *)
Arguments Ok {A} a.
Arguments Threw {A} what.

Definition usage_line (prog : string) : string := "Usage: " +:+ prog +:+ " <port>" +:+ nl.
Definition main_exception_line (what : string) : string :=
  "Main thread exception: " +:+ what +:+ nl.

(** [main], with [prog] for [argv[0]] and [args] for the rest of [argv].
    [sigaction_error] is the text [perror] prints when [sigaction] fails;
    [lexical_cast] is [boost::lexical_cast<int>]; [serve port] is the
    construction of the server, [run()] and the destruction: [None] as
    long as they are not over, then whether an exception came out.  The
    result is what goes to standard error and the exit status, once the
    process has exited. *)
Definition main (sigaction_error : option string)
    (lexical_cast : string -> Try Z) (serve : Z -> option (Try unit))
    (prog : string) (args : list string) : option (list string * Z) :=
  match sigaction_error with
  | Some text => Some (["sigaction: " +:+ text +:+ nl], 1)
  | None =>
      match args with
      | [] => Some ([usage_line prog], 1)
      | arg :: _ =>
          match lexical_cast arg with
          | Threw what => Some ([main_exception_line what], 1)
          | Ok port =>
              match serve port with
              | None => None
              | Some (Threw what) => Some ([main_exception_line what], 1)
              | Some (Ok _) => Some ([], 0)
              end
          end
      end
  end.

(** [boost::lexical_cast<int>] as the library documents it: an optional
    sign, then decimal digits only, at least one, and a value that fits an
    [int]; anything else throws [bad_lexical_cast]. *)
Definition digit_of (a : ascii) : option Z :=
  let n := Z.of_nat (nat_of_ascii a) in
  if (48 <=? n) && (n <=? 57) then Some (n - 48) else None.

Fixpoint digits (s : string) (acc : Z) : option Z :=
  match s with
  | EmptyString => Some acc
  | String a s' =>
      match digit_of a with
      | Some d => digits s' (10 * acc + d)
      | None => None
      end
  end.

Definition unsigned_decimal (s : string) : option Z :=
  match s with
  | EmptyString => None
  | _ => digits s 0
  end.

Definition bad_lexical_cast : string :=
  "bad lexical cast: source type value could not be interpreted as target".

Definition lexical_cast_int (s : string) : Try Z :=
  let v :=
    match s with
    | String "-" s' => option_map Z.opp (unsigned_decimal s')
    | String "+" s' => unsigned_decimal s'
    | _ => unsigned_decimal s
    end in
  match v with
  | Some n => if (- 2 ^ 31 <=? n) && (n <=? 2 ^ 31 - 1) then Ok n else Threw bad_lexical_cast
  | None => Threw bad_lexical_cast
  end.

(** ** The accept loop and shutdown

    [ChatServer::run] on the accepting thread and [ChatServer::shutdown]
    on the thread of a reader unit, with [_clientsMutex] between them.  A
    session gets its place in [heap] when it enters the live-set: before that
    only [run] holds it. *)

Module Accept.

Inductive Owner := Free | HeldByRun | HeldByShutdown.

Inductive RunPc :=
| ATest                  (* while (! _isTerminating) *)
| AAccept (client : nat) (* session made; blocked in _acceptor.accept *)
| ALock (client : nat)   (* accept returned; taking _clientsMutex *)
| AInner (client : nat)  (* mutex held; if (! _isTerminating) *)
| AInsert (client : nat)  (* the test passed; insert and start *)
| AUnlock                (* end of the body: guard and pointer released *)
| AReturned              (* run() returned *)
| AThrown.               (* accept threw; run() is left by the exception *)

Inductive ShutdownPc :=
| SOutside                       (* not inside shutdown() *)
| STerminate (todo : list nat)   (* mutex held; the loop over _clients *)
| SUnlock                        (* flag set; lock.unlock() *)
| SKill.                         (* pthread_kill of the accepting thread *)

Inductive Event :=
| EStarted (client : nat)        (* inserted into _clients, start() called *)
| EDiscarded (client : nat)      (* the session was dropped *)
| ETerminate (client : nat)      (* client->terminate() *)
| EFlagSet                       (* _isTerminating = true *)
| ESignalAcceptor.               (* pthread_kill(_acceptingThreadId, SIGUSR1) *)

Record State := mkState {
  srv : ChatServer;
  mutex : Owner;
  apc : RunPc;
  hpc : ShutdownPc;
  next : nat;                    (* the address of the next session made *)
  events : list Event            (* oldest first *)
}.

Inductive Actor :=
| Run            (* next step of run() *)
| Connection     (* a client connects: accept returns *)
| AcceptThrows   (* accept throws, for instance when interrupted *)
| Shutdown.      (* next step of shutdown() *)

Definition init : State :=
  {| srv := newServer; mutex := Free; apc := ATest; hpc := SOutside;
     next := 1; events := [] |}.

Definition set_srv (v : ChatServer) (st : State) : State :=
  {| srv := v; mutex := mutex st; apc := apc st; hpc := hpc st;
     next := next st; events := events st |}.
Definition set_mutex (v : Owner) (st : State) : State :=
  {| srv := srv st; mutex := v; apc := apc st; hpc := hpc st;
     next := next st; events := events st |}.
Definition set_apc (v : RunPc) (st : State) : State :=
  {| srv := srv st; mutex := mutex st; apc := v; hpc := hpc st;
     next := next st; events := events st |}.
Definition set_hpc (v : ShutdownPc) (st : State) : State :=
  {| srv := srv st; mutex := mutex st; apc := apc st; hpc := v;
     next := next st; events := events st |}.
Definition set_next (v : nat) (st : State) : State :=
  {| srv := srv st; mutex := mutex st; apc := apc st; hpc := hpc st;
     next := v; events := events st |}.
Definition record (e : Event) (st : State) : State :=
  {| srv := srv st; mutex := mutex st; apc := apc st; hpc := hpc st;
     next := next st; events := events st ++ [e] |}.

Definition is_free (o : Owner) : bool :=
  match o with Free => true | _ => false end.

Definition step_run (st : State) : State :=
  match apc st with
  | ATest =>
      if _isTerminating (srv st) then set_apc AReturned st
      else set_apc (AAccept (next st)) (set_next (S (next st)) st)
  | AAccept _ => st
  | ALock client =>
      if is_free (mutex st) then set_apc (AInner client) (set_mutex HeldByRun st)
      else st
  | AInner client =>
      if _isTerminating (srv st)
      then set_apc AUnlock (record (EDiscarded client) st)
      else set_apc (AInsert client) st
  | AInsert client =>
      set_apc AUnlock
        (record (EStarted client) (set_srv (enter_client client (srv st)) st))
  | AUnlock => set_apc ATest (set_mutex Free st)
  | AReturned => st
  | AThrown => st
  end.

(** [terminate] on a session of the live-set. *)
Definition terminate_client (client : nat) (v : ChatServer) : ChatServer :=
  with_heap (alter (fun s => snd (fetch_or READER_TERMINATION_REQUESTED s))
                   client (heap v)) v.

Definition step_shutdown (st : State) : State :=
  match hpc st with
  | SOutside =>
      if is_free (mutex st)
      then set_hpc (STerminate (elements (_clients (srv st))))
                   (set_mutex HeldByShutdown st)
      else st
  | STerminate (client :: todo) =>
      set_hpc (STerminate todo)
        (record (ETerminate client) (set_srv (terminate_client client (srv st)) st))
  | STerminate [] =>
      set_hpc SUnlock (record EFlagSet (set_srv (with_terminating true (srv st)) st))
  | SUnlock => set_hpc SKill (set_mutex Free st)
  | SKill => set_hpc SOutside (record ESignalAcceptor st)
  end.

Definition step (a : Actor) (st : State) : State :=
  match a with
  | Run => step_run st
  | Connection =>
      match apc st with
      | AAccept client => set_apc (ALock client) st
      | _ => st
      end
  | AcceptThrows =>
      match apc st with
      | AAccept client => set_apc AThrown (record (EDiscarded client) st)
      | _ => st
      end
  | Shutdown => step_shutdown st
  end.

Definition exec (sched : list Actor) (st : State) : State :=
  fold_left (fun st a => step a st) sched st.

Definition run_holds (st : State) : bool :=
  match apc st with AInner _ | AInsert _ | AUnlock => true | _ => false end.

Definition shutdown_holds (st : State) : bool :=
  match hpc st with STerminate _ | SUnlock => true | _ => false end.

(** The session [run] has in hand, if any. *)
Definition in_hand (st : State) : option nat :=
  match apc st with
  | AAccept c | ALock c | AInner c | AInsert c => Some c
  | _ => None
  end.

(** Addresses below this bound may be in the live-set. *)
Definition limit (st : State) : nat :=
  match in_hand st with Some c => c | None => next st end.

(** The invariant of the accept loop: the mutex is held by the thread
    that is in its critical section; a session is inserted only while the
    flag is clear; the flag is clear as long as no [EFlagSet] happened;
    sessions in the live-set or started are older than the one in hand. *)
Record accept_inv (st : State) : Prop := mkAcceptInv {
  inv_mutex :
    mutex st = if run_holds st then HeldByRun
               else if shutdown_holds st then HeldByShutdown else Free;
  inv_excl : run_holds st && shutdown_holds st = false;
  inv_insert : forall c, apc st = AInsert c -> _isTerminating (srv st) = false;
  inv_flag : _isTerminating (srv st) = false -> EFlagSet ∉ events st;
  inv_hand : forall c, in_hand st = Some c -> (c < next st)%nat;
  inv_fresh : forall x,
    x ∈ _clients (srv st) \/ EStarted x ∈ events st -> (x < limit st)%nat
}.

(** [client] is not in the live-set, was never started, and [run] either
    does not hold it or is about to drop it. *)
Record dropped (client : nat) (st : State) : Prop := mkDropped {
  dropped_set : client ∉ _clients (srv st);
  dropped_events : EStarted client ∉ events st;
  dropped_old : (client < next st)%nat;
  dropped_hand :
    in_hand st = Some client ->
    apc st = AInner client /\ _isTerminating (srv st) = true
}.

(** No session is started after the flag was set. *)
Definition no_start_after_flag (ev : list Event) : Prop :=
  forall pre post, ev = pre ++ EFlagSet :: post ->
                   forall c, EStarted c ∉ post.

(** A connection arrives, shutdown runs to its end while [run] waits for
    the mutex, then [run] goes on. *)
Definition shutdown_during_accept : list Actor :=
  [Run; Connection; Shutdown; Shutdown; Shutdown; Shutdown; Run].

(** One client is accepted and started, [run] blocks in the next
    [accept], [shutdown] runs from entry to return, and the signal makes
    [accept] throw. *)
Definition shutdown_interrupts_accept : list Actor :=
  [Run; Connection; Run; Run; Run; Run; Run;
   Shutdown; Shutdown; Shutdown; Shutdown; Shutdown; AcceptThrows].

(** [shutdown] runs while [run] waits for the mutex with a second client
    in hand; [run] drops that client and finds the flag at its loop test. *)
Definition shutdown_before_test : list Actor :=
  [Run; Connection; Run; Run; Run; Run; Run; Connection;
   Shutdown; Shutdown; Shutdown; Shutdown; Shutdown; Run; Run; Run; Run].

End Accept.

(** ** The server as [main] sees it *)

(** How [run()] has ended: by its loop test, by the exception that left
    [accept] (there is no handler in [run]), or not yet. *)
Definition run_outcome (accept_error : string) (st : Accept.State)
    : option (Try unit) :=
  match Accept.apc st with
  | Accept.AReturned => Some (Ok tt)
  | Accept.AThrown => Some (Threw accept_error)
  | _ => None
  end.

(** [ChatServer server(port); server.run();] and the destruction of
    [server] at the end of the block or on the way of the exception to
    [main]'s handler.  [bind_error] is the exception of the acceptor's
    construction, if it fails (the reaper thread is not started then);
    [sched] is the schedule of [run] and [shutdown]; [accept_error] is the
    message of the exception of [accept]; the destructor joins the reaper
    thread, and [reaper_returns] tells whether that join returns. *)
Definition serve (bind_error : option string) (accept_error : string)
    (sched : list Accept.Actor) (reaper_returns : bool) (port : Z)
    : option (Try unit) :=
  match bind_error with
  | Some what => Some (Threw what)
  | None =>
      match run_outcome accept_error (Accept.exec sched Accept.init) with
      | Some r => if reaper_returns then Some r else None
      | None => None
      end
  end.

(** What [accept] reports when a signal interrupts it. *)
Definition accept_interrupted : string := "accept: Interrupted system call".

(** ** Further parts of the server *)

(** [PtrLess<std::string>]: the order of the keys of [_namesToClients];
    [None] is the null pointer, strings compare as [std::string] does,
    character by character as unsigned values, a proper prefix first. *)
Definition PtrLess (lhs rhs : option string) : bool :=
  match lhs, rhs with
  | None, Some _ => true
  | None, None => false
  | Some _, None => false
  | Some l, Some r => String.ltb l r
  end.

(** Two keys between which [std::map] does not tell a difference. *)
Definition PtrEquiv (lhs rhs : option string) : bool :=
  negb (PtrLess lhs rhs) && negb (PtrLess rhs lhs).

(** [ChatServer::shutdown] run without interruption, as seen in the
    server object: [terminate] on every session of the live-set, then the
    flag. *)
Definition shutdown (srv : ChatServer) : ChatServer :=
  with_terminating true
    (foldl (fun v client => Accept.terminate_client client v) srv
           (elements (_clients srv))).

(** The line a chat message becomes: time, name, text. *)
Definition chat_line (stamp name line : string) : string :=
  stamp +:+ " " +:+ name +:+ ": " +:+ line +:+ nl.

(** [_name] of the session at [self], as [parseLine] reads it. *)
Definition name_of (self : nat) (srv : ChatServer) : string :=
  match heap srv !! self with
  | Some s => _name s
  | None => EmptyString
  end.

(** [parseLine]; [stamp] is what the clock shows when the line is
    formatted. *)
Definition parseLine (stamp : string) (self : nat) (line : string)
    (srv : ChatServer) : bool * ChatServer :=
  if String.eqb line "/quit" then (false, srv)
  else if String.eqb line "/shutdown" then (false, shutdown srv)
  else (true, broadcast self (chat_line stamp (name_of self srv) line) srv).

Inductive LineLoopEnd :=
| Stopped        (* parseLine returned false *)
| InputOver.     (* readLineFromClient threw *)

Record LineLoopResult := mkLineLoop {
  line_end : LineLoopEnd;
  line_server : ChatServer;
  line_unread : list string
}.

(** [while (parseLine(readLineFromClient()));] on the lines the client
    sends; [clock k] is the time at the [k]-th chat line. *)
Fixpoint lineLoop (clock : nat -> string) (k : nat) (lines : list string)
    (self : nat) (srv : ChatServer) : LineLoopResult :=
  match lines with
  | [] => mkLineLoop InputOver srv []
  | line :: rest =>
      match parseLine (clock k) self line srv with
      | (true, srv') => lineLoop clock (S k) rest self srv'
      | (false, srv') => mkLineLoop Stopped srv' rest
      end
  end.

Definition is_command (line : string) : bool :=
  String.eqb line "/quit" || String.eqb line "/shutdown".

(** What a session named [name] says with [lines]: every line before the
    first command, stamped in turn. *)
Fixpoint said (clock : nat -> string) (k : nat) (name : string)
    (lines : list string) : list string :=
  match lines with
  | [] => []
  | line :: rest =>
      if is_command line then []
      else chat_line (clock k) name line :: said clock (S k) name rest
  end.

(** The message the writer holds between [getMessage] and the write. *)
Definition in_flight (c : Machine.Config) : list string :=
  match Machine.wpc c with
  | Machine.WWrite msg => [msg]
  | _ => []
  end.

(** The messages of the [sendMessage] calls of a schedule that went
    through (a call made while the writer holds the mutex waits). *)
Fixpoint accepted (sched : list Machine.Actor) (c : Machine.Config) : list string :=
  match sched with
  | [] => []
  | a :: rest =>
      match a with
      | Machine.Sender msg => if Machine.writer_holds_mutex c then [] else [msg]
      | _ => []
      end ++ accepted rest (Machine.step a c)
  end.

(** The message whose write threw, if a write threw. *)
Fixpoint failed (sched : list Machine.Actor) (c : Machine.Config) : list string :=
  match sched with
  | [] => []
  | a :: rest =>
      match a, Machine.wpc c with
      | Machine.WriterThrows _, Machine.WWrite msg => [msg]
      | _, _ => []
      end ++ failed rest (Machine.step a c)
  end.

(** A schedule without [sendMessage] calls and without spurious wake-ups:
    only the reader, the writer, [terminate] and the reaper's join move. *)
Definition quiet (a : Machine.Actor) : bool :=
  match a with
  | Machine.Sender _ | Machine.Spurious => false
  | _ => true
  end.

(** The reader finishes between the writer's test of the predicate and
    the moment the writer blocks. *)
Definition missed_wakeup : list Machine.Actor :=
  [Machine.Writer; Machine.Reader; Machine.Reader; Machine.Reader; Machine.Writer].

(** [terminate] has been called on the session at [x], and its flag is
    set. *)
Definition terminated (x : nat) (st : Accept.State) : Prop :=
  Accept.ETerminate x ∈ Accept.events st /\
  exists s, heap (Accept.srv st) !! x = Some s /\
            has (_state s) READER_TERMINATION_REQUESTED = true.

(** The invariant of [shutdown]: inside the loop every session of the
    live-set is still to do or has had its [terminate]; once the flag is
    set every session of the live-set has had its [terminate]. *)
Record shutdown_inv (st : Accept.State) : Prop := mkShutdownInv {
  sinv_loop : forall todo x,
    Accept.hpc st = Accept.STerminate todo ->
    x ∈ _clients (Accept.srv st) ->
    x ∈ todo \/ terminated x st;
  sinv_flag : forall x,
    _isTerminating (Accept.srv st) = true ->
    x ∈ _clients (Accept.srv st) ->
    terminated x st
}.

(** The live-set is the set of the sessions started, and each of them has
    its object. *)
Record liveset_inv (st : Accept.State) : Prop := mkLivesetInv {
  linv_started : forall x,
    x ∈ _clients (Accept.srv st) <-> Accept.EStarted x ∈ Accept.events st;
  linv_heap : forall x,
    x ∈ _clients (Accept.srv st) -> is_Some (heap (Accept.srv st) !! x)
}.

(** * Properties *)

Import Machine.

(** ** Flags *)

Lemma has_testbit (x k : Z) : 0 <= k -> has x (2 ^ k) = Z.testbit x k.
Proof.
  intros Hk. unfold has.
  destruct (Z.testbit x k) eqn:E.
  - apply negb_true_iff, Z.eqb_neq. intros H0.
    assert (Hb : Z.testbit (Z.land x (2 ^ k)) k = true)
      by (rewrite Z.land_spec, E, Z.pow2_bits_true; auto).
    rewrite H0, Z.bits_0 in Hb. discriminate.
  - apply negb_false_iff, Z.eqb_eq, Z.bits_inj_0. intros n.
    rewrite Z.land_spec.
    destruct (Z.eq_dec n k) as [->|Hn].
    + now rewrite E.
    + rewrite (Z.pow2_bits_false k n) by congruence. apply andb_false_r.
Qed.

Lemma has_lor (x b k : Z) :
  0 <= k -> has (Z.lor x b) (2 ^ k) = has x (2 ^ k) || Z.testbit b k.
Proof. intros Hk. now rewrite !has_testbit, Z.lor_spec. Qed.

Lemma has_reader_set x : has (Z.lor x READER_TERMINATED) READER_TERMINATED = true.
Proof. change READER_TERMINATED with (2 ^ 0). rewrite has_lor by lia. apply orb_true_r. Qed.
Lemma has_writer_set x : has (Z.lor x WRITER_TERMINATED) WRITER_TERMINATED = true.
Proof. change WRITER_TERMINATED with (2 ^ 1). rewrite has_lor by lia. apply orb_true_r. Qed.
Lemma has_reader_keep_w x :
  has (Z.lor x WRITER_TERMINATED) READER_TERMINATED = has x READER_TERMINATED.
Proof.
  change READER_TERMINATED with (2 ^ 0). change WRITER_TERMINATED with (2 ^ 1) at 1.
  rewrite has_lor by lia. apply orb_false_r.
Qed.
Lemma has_writer_keep_r x :
  has (Z.lor x READER_TERMINATED) WRITER_TERMINATED = has x WRITER_TERMINATED.
Proof.
  change WRITER_TERMINATED with (2 ^ 1). change READER_TERMINATED with (2 ^ 0) at 1.
  rewrite has_lor by lia. apply orb_false_r.
Qed.
Lemma has_reader_keep_t x :
  has (Z.lor x READER_TERMINATION_REQUESTED) READER_TERMINATED = has x READER_TERMINATED.
Proof.
  change READER_TERMINATED with (2 ^ 0). change READER_TERMINATION_REQUESTED with (2 ^ 2).
  rewrite has_lor by lia. apply orb_false_r.
Qed.
Lemma has_writer_keep_t x :
  has (Z.lor x READER_TERMINATION_REQUESTED) WRITER_TERMINATED = has x WRITER_TERMINATED.
Proof.
  change WRITER_TERMINATED with (2 ^ 1). change READER_TERMINATION_REQUESTED with (2 ^ 2).
  rewrite has_lor by lia. apply orb_false_r.
Qed.
Lemma has_requested_set x :
  has (Z.lor x READER_TERMINATION_REQUESTED) READER_TERMINATION_REQUESTED = true.
Proof.
  change READER_TERMINATION_REQUESTED with (2 ^ 2). rewrite has_lor by lia.
  apply orb_true_r.
Qed.

Create Rewrite HintDb flags.
#[local] Hint Rewrite has_reader_set has_writer_set has_reader_keep_w
  has_writer_keep_r has_reader_keep_t has_writer_keep_t has_requested_set : flags.

(** ** The handshake invariant *)

Lemma removals_app l e : removals (l ++ [e]) = removals l ++ removals [e].
Proof. induction l as [|[] l IH]; cbn; now rewrite ?IH. Qed.

Lemma handshake_inv_init : handshake_inv init.
Proof. split; try reflexivity. intros o H. discriminate. Qed.

#[local] Arguments has : simpl never.
#[local] Arguments getMessage : simpl never.
#[local] Arguments setName : simpl never.
#[local] Arguments writer_may_proceed : simpl never.
#[local] Arguments Z.lor : simpl never.

Ltac unfold_step :=
  cbv [step step_reader step_writer step_terminator notify_writer
       writer_holds_mutex fetch_or set_sess set_rpc set_wpc set_spc emit
       step_join signal_reader set_joined
       sess rpc wpc spc log joined reader_old writer_old reader_enqueued
       writer_enqueued].

Ltac split_step :=
  repeat match goal with
         | |- context [if ?b then _ else _] => destruct b eqn:?; unfold_step
         | |- context [match removals ?l with _ => _ end] =>
             destruct (removals l) eqn:?; unfold_step
         | |- context [match getMessage ?x with _ => _ end] =>
             let E := fresh "E" in
             destruct (getMessage x) eqn:E; unfold getMessage in E;
             [| destruct (negb (_state x =? ALL_RUNNING)); [discriminate E|];
                destruct (_messages x); [discriminate E|];
                inversion E; subst; clear E |];
             unfold_step
         | |- context [match setName ?n ?x with _ => _ end] =>
             let E := fresh "E" in
             destruct (setName n x) eqn:E; unfold setName in E;
             [destruct (_nameValid x); [discriminate E|]; inversion E; subst; clear E|];
             unfold_step
         end.

Ltac flag_crush :=
  cbn [_state with_state with_messages sendMessage _messages is_some] in *;
  rewrite ?removals_app; cbn [removals];
  autorewrite with flags in *;
  repeat match goal with
         | H : has _ _ = true |- _ => rewrite H in *
         | H : has _ _ = false |- _ => rewrite H in *
         | H : has _ _ = negb _ |- _ => rewrite H in *
         | H : true = negb _ |- _ => symmetry in H
         | H : false = negb _ |- _ => symmetry in H
         | H : removals _ = _ |- _ => rewrite H in *; clear H
         | H : negb _ = true |- _ => apply negb_true_iff in H
         | H : negb _ = false |- _ => apply negb_false_iff in H
         end;
  cbn [negb app] in *; rewrite ?app_nil_r in *;
  try first [assumption | discriminate | reflexivity | congruence].

Lemma handshake_inv_step a c : handshake_inv c -> handshake_inv (step a c).
Proof.
  intros [Hr Hw Hs Hk Hq].
  destruct c as [s r w sp l j].
  unfold reader_old, writer_old, reader_enqueued, writer_enqueued in *.
  cbn [sess rpc wpc spc log] in *.
  assert (Hk' : match w with WKill o => has o READER_TERMINATED = false | _ => True end)
    by (destruct w; auto).
  clear Hk.
  destruct a, r, w, sp; unfold_step; split_step.
  all: split; unfold_step; try (intros ? Hx; inversion Hx; subst; clear Hx).
  all: flag_crush.
Qed.

Lemma handshake_inv_exec sched c : handshake_inv c -> handshake_inv (exec sched c).
Proof.
  revert c. induction sched as [|a sched IH]; intros c Hc; [exact Hc|].
  apply IH, handshake_inv_step, Hc.
Qed.

Lemma handshake_inv_reachable sched : handshake_inv (exec sched init).
Proof. apply handshake_inv_exec, handshake_inv_init. Qed.

(** At every moment of every execution the session is in the reclamation
    queue at most once. *)
Lemma enqueued_at_most_once sched :
  (length (removals (log (exec sched init))) <= 1)%nat.
Proof.
  destruct (handshake_inv_reachable sched) as [_ _ Hs _ Hq].
  rewrite Hq. unfold reader_enqueued, writer_enqueued, reader_old, writer_old in *.
  destruct (rpc (exec sched init)), (wpc (exec sched init)); cbn; try lia;
    repeat match goal with
           | |- context [if ?b then _ else _] => destruct b eqn:?
           end; cbn; try lia; cbn in Hs; congruence.
Qed.

Lemma lor_nonzero x b : (Z.lor x b =? 0) = false \/ (x =? 0) = true.
Proof.
  destruct (Z.eqb_spec (Z.lor x b) 0) as [H|H]; [right|now left].
  apply Z.lor_eq_0_iff in H. now apply Z.eqb_eq.
Qed.

Lemma may_proceed_fetch_or s b :
  writer_may_proceed s = true ->
  writer_may_proceed (with_state (Z.lor (_state s) b) s) = true.
Proof.
  unfold writer_may_proceed, ALL_RUNNING. cbn [_state with_state _messages].
  intros H. destruct (lor_nonzero (_state s) b) as [E|E].
  - now rewrite E.
  - rewrite E in H. cbn [negb orb] in H. rewrite H. apply orb_true_r.
Qed.

Lemma writer_inv_step a c : writer_inv c -> writer_inv (step a c).
Proof.
  unfold writer_inv. destruct c as [s r w sp l j]. cbn [wpc sess].
  destruct a, r, w, sp; unfold_step; intros H; split_step;
    try exact I; try exact H; try (apply may_proceed_fetch_or; exact H);
    try assumption.
  all: unfold writer_may_proceed, getMessage in *;
    destruct (negb (_state s =? ALL_RUNNING)); try discriminate;
    destruct (_messages s); cbn in *; congruence.
Qed.

Lemma writer_inv_reachable sched : writer_inv (exec sched init).
Proof.
  assert (G : forall c, writer_inv c -> writer_inv (exec sched c)).
  { induction sched as [|a sched IH]; intros c Hc; [exact Hc|].
    apply IH, writer_inv_step, Hc. }
  apply G. exact I.
Qed.

(** The writer never evaluates [front()] on an empty queue. *)
Lemma front_of_empty_unreachable sched : wpc (exec sched init) <> WUndefined.
Proof.
  pose proof (writer_inv_reachable sched) as H. unfold writer_inv in H.
  intros E. now rewrite E in H.
Qed.

(** ** Progress of the handshake *)

Lemma has_nonzero x f : has x f = true -> (x =? ALL_RUNNING) = false.
Proof.
  unfold has, ALL_RUNNING. destruct (Z.eqb_spec x 0) as [->|]; [|reflexivity].
  rewrite Z.land_0_l. discriminate.
Qed.

Lemma getMessage_flagged s f : has (_state s) f = true -> getMessage s = GotNull.
Proof. intros H. unfold getMessage. now rewrite (has_nonzero _ _ H). Qed.

Lemma may_proceed_flagged s f : has (_state s) f = true -> writer_may_proceed s = true.
Proof. intros H. unfold writer_may_proceed. now rewrite (has_nonzero _ _ H). Qed.

Lemma reader_advances c :
  reader_rank (rpc (step Reader c)) = pred (reader_rank (rpc c)).
Proof.
  destruct c as [s [] w sp l j]; unfold_step; try reflexivity.
  destruct (has old WRITER_TERMINATED); reflexivity.
Qed.

Lemma writer_advances c :
  writer_inv c -> has (_state (sess c)) READER_TERMINATED = true ->
  let c' := step Writer (step Spurious c) in
  (writer_rank (wpc c') <= pred (writer_rank (wpc c)))%nat /\
  rpc c' = rpc c /\
  has (_state (sess c')) READER_TERMINATED = true.
Proof.
  unfold writer_inv. destruct c as [s r [] sp l j]; cbn [wpc sess]; intros Hi Hs;
    unfold_step; rewrite ?(may_proceed_flagged _ _ Hs), ?(getMessage_flagged _ _ Hs);
    unfold_step; cbn [writer_rank _state with_state];
    try (destruct (has old READER_TERMINATED); unfold_step;
         cbn [writer_rank _state with_state]);
    autorewrite with flags; try tauto; repeat split; try assumption; lia.
Qed.

Lemma writer_drains n : forall c,
  writer_inv c -> has (_state (sess c)) READER_TERMINATED = true ->
  (writer_rank (wpc c) <= n)%nat ->
  writer_rank (wpc (exec (draining n) c)) = 0%nat /\
  rpc (exec (draining n) c) = rpc c.
Proof.
  induction n as [|n IH]; intros c Hw Hs Hn.
  - cbn. split; [lia | reflexivity].
  - cbn [draining exec fold_left].
    destruct (writer_advances c Hw Hs) as (Hk & Hp & Hs').
    destruct (IH (step Writer (step Spurious c))) as [H1 H2].
    + now apply writer_inv_step, writer_inv_step.
    + exact Hs'.
    + lia.
    + split; [exact H1 | now rewrite <- Hp].
Qed.

Lemma exec_app s1 s2 c : exec (s1 ++ s2) c = exec s2 (exec s1 c).
Proof. unfold exec. apply fold_left_app. Qed.

Lemma exec_cons a rest c : exec (a :: rest) c = exec rest (step a c).
Proof. reflexivity. Qed.

Lemma reader_drains c :
  handshake_inv c ->
  let c' := exec [Reader; Reader; Reader] c in
  reader_done c' = true /\ has (_state (sess c')) READER_TERMINATED = true.
Proof.
  intros Hh. cbn zeta.
  assert (Hr : reader_rank (rpc (exec [Reader; Reader; Reader] c)) = 0%nat).
  { unfold exec. cbn [fold_left]. rewrite !reader_advances. destruct (rpc c); reflexivity. }
  assert (Hi : handshake_inv (exec [Reader; Reader; Reader] c))
    by now apply handshake_inv_exec.
  destruct Hi as [Hb _ _ _ _]. rewrite Hb. unfold reader_done, reader_old.
  destruct (rpc (exec [Reader; Reader; Reader] c)); try discriminate Hr. now split.
Qed.

Lemma units_can_finish sched : quiesced (exec (sched ++ finishing) init) = true.
Proof.
  unfold finishing. rewrite !exec_app.
  pose proof (handshake_inv_reachable sched) as Hh.
  pose proof (writer_inv_reachable sched) as Hw.
  generalize dependent (exec sched init). intros c0 Hh Hw.
  destruct (reader_drains c0 Hh) as [Hd Hs].
  assert (Hw3 : writer_inv (exec [Reader; Reader; Reader] c0)).
  { unfold exec. cbn [fold_left]. now repeat apply writer_inv_step. }
  generalize dependent (exec [Reader; Reader; Reader] c0). intros c3 Hd Hs Hw3.
  assert (Hrank : (writer_rank (wpc c3) <= 7)%nat).
  { unfold writer_inv in Hw3. destruct (wpc c3); cbn [writer_rank]; first [lia | tauto]. }
  destruct (writer_drains 7 c3 Hw3 Hs Hrank) as [H1 H2].
  unfold quiesced, reader_done, writer_done in *. rewrite H2, Hd.
  destruct (wpc (exec (draining 7) c3)); try discriminate H1. reflexivity.
Qed.

(** What the invariant gives for a session whose two units have returned. *)
Lemma quiesced_removed_once c :
  handshake_inv c -> quiesced c = true ->
  exists u,
    removals (log c) = [u] /\
    saw_other_done c u = true /\
    saw_other_done c (other u) = false.
Proof.
  intros [_ _ Hs _ Hl] Hq.
  unfold quiesced, reader_done, writer_done in Hq.
  unfold saw_other_done, reader_enqueued, writer_enqueued, reader_old, writer_old in *.
  destruct (rpc c) as [| |?|ro]; try discriminate Hq.
  destruct (wpc c) as [| | | | | | | |wo|]; try discriminate Hq.
  rewrite Hl.
  destruct (has wo READER_TERMINATED) eqn:E; cbn [negb] in Hs; rewrite Hs; cbn [app].
  - exists WriterUnit. cbn. auto.
  - exists ReaderUnit. cbn. auto.
Qed.



(** ** The writer's loop *)

Lemma written_app l e : written (l ++ [e]) = written l ++ written [e].
Proof. induction l as [|[] l IH]; cbn; now rewrite ?IH. Qed.



Lemma getMessage_nonzero s :
  (_state s =? ALL_RUNNING) = false -> getMessage s = GotNull.
Proof. intros H. unfold getMessage. now rewrite H. Qed.

Lemma fetch_or_nonzero x b :
  (x =? ALL_RUNNING) = false -> (Z.lor x b =? ALL_RUNNING) = false.
Proof.
  unfold ALL_RUNNING. intros H. destruct (lor_nonzero x b) as [E|E]; [exact E|].
  congruence.
Qed.

(** Once a flag is set the writer takes nothing from the queue any more:
    the queue only grows, and the socket gets at most the message the
    writer holds. *)
Lemma flagged_step a c :
  (_state (sess c) =? ALL_RUNNING) = false ->
  (_state (sess (step a c)) =? ALL_RUNNING) = false /\
  (exists more, _messages (sess (step a c)) = _messages (sess c) ++ more) /\
  ((written (log (step a c)) = written (log c) /\
    (in_flight (step a c) = in_flight c \/ in_flight (step a c) = [])) \/
   (written (log (step a c)) = written (log c) ++ in_flight c /\
    in_flight (step a c) = [])).
Proof.
  unfold in_flight. destruct c as [s r w sp l j]. cbn [sess wpc log]. intros Hs.
  destruct a, r, w, sp; unfold_step; rewrite ?(getMessage_nonzero _ Hs); unfold_step;
    split_step;
    cbn [_state with_state with_messages sendMessage _messages];
    rewrite ?written_app; cbn [written]; rewrite ?app_nil_r;
    (split; [first [exact Hs | now apply fetch_or_nonzero]|]);
    (split; [first [now exists [] ; rewrite app_nil_r | eexists; reflexivity]|]);
    first [left; split; [reflexivity|]; first [left; reflexivity | right; reflexivity]
          | right; split; reflexivity].
Qed.

Lemma flagged_exec rest : forall c,
  (_state (sess c) =? ALL_RUNNING) = false ->
  (exists more, _messages (sess (exec rest c)) = _messages (sess c) ++ more) /\
  ((written (log (exec rest c)) = written (log c) /\
    (in_flight (exec rest c) = in_flight c \/ in_flight (exec rest c) = [])) \/
   (written (log (exec rest c)) = written (log c) ++ in_flight c /\
    in_flight (exec rest c) = [])).
Proof.
  induction rest as [|a rest IH]; intros c Hs.
  - split; [exists []; now rewrite app_nil_r|]. left. split; [reflexivity|now left].
  - rewrite exec_cons.
    destruct (flagged_step a c Hs) as (Hs' & [m1 Hm1] & Hw1).
    destruct (IH _ Hs') as ([m2 Hm2] & Hw2).
    split; [exists (m1 ++ m2); now rewrite Hm2, Hm1, app_assoc|].
    destruct Hw1 as [[E1 F1]|[E1 F1]], Hw2 as [[E2 F2]|[E2 F2]];
      rewrite E2, E1.
    + left. split; [reflexivity|]. destruct F1 as [F1|F1], F2 as [F2|F2]; rewrite ?F2, ?F1; auto.
    + destruct F1 as [F1|F1]; rewrite F1 in *.
      * right. now split.
      * left. rewrite app_nil_r. split; [reflexivity | now right].
    + right. split; [reflexivity|]. destruct F2 as [F2|F2]; congruence.
    + right. rewrite F1, app_nil_r. now split.
Qed.



(** ** Termination requests and messages for a quiesced session *)

Lemma lor_idem x b : Z.lor (Z.lor x b) b = Z.lor x b.
Proof. now rewrite <- Z.lor_assoc, Z.lor_diag. Qed.

(** Whatever happens after both units have returned leaves the units, the
    reclamation queue and the socket alone; the outbound queue only grows. *)
Lemma quiesced_step a c :
  quiesced c = true ->
  quiesced (step a c) = true /\
  removals (log (step a c)) = removals (log c) /\
  written (log (step a c)) = written (log c) /\
  _messages (sess (step a c)) = _messages (sess c) ++ sends [a].
Proof.
  unfold quiesced, reader_done, writer_done.
  destruct c as [s [] [] sp l j]; cbn [rpc wpc andb]; intros H; try discriminate H.
  destruct a; unfold_step; try (destruct sp; unfold_step); split_step;
    cbn [sends sendMessage with_messages with_state _messages];
    rewrite ?removals_app, ?written_app; cbn [removals written];
    rewrite ?app_nil_r; auto.
Qed.

Lemma quiesced_exec rest : forall c,
  quiesced c = true ->
  quiesced (exec rest c) = true /\
  removals (log (exec rest c)) = removals (log c) /\
  written (log (exec rest c)) = written (log c) /\
  _messages (sess (exec rest c)) = _messages (sess c) ++ sends rest.
Proof.
  induction rest as [|a rest IH]; intros c Hq.
  - cbn. now rewrite app_nil_r.
  - destruct (quiesced_step a c Hq) as (H1 & H2 & H3 & H4).
    destruct (IH _ H1) as (G1 & G2 & G3 & G4).
    change (exec (a :: rest) c) with (exec rest (step a c)).
    rewrite G2, G3, G4, H2, H3, H4. repeat split; auto.
    rewrite <- app_assoc. f_equal. now destruct a.
Qed.

Lemma sends_terminate_calls n : sends (terminate_calls n) = [].
Proof. induction n; cbn; auto. Qed.

Lemma terminator_keeps_writer c : wpc (step Terminator c) = wpc c.
Proof. destruct c as [s r w [] l j]; reflexivity. Qed.

Lemma terminate_calls_keep_writer n : forall c,
  wpc (exec (terminate_calls n) c) = wpc c.
Proof.
  induction n as [|n IH]; intros c; [reflexivity|].
  change (exec (terminate_calls (S n)) c)
    with (exec (terminate_calls n) (step Terminator (step Terminator c))).
  now rewrite IH, !terminator_keeps_writer.
Qed.

Lemma removals_snoc_nonempty l e : removals l <> [] -> removals (l ++ [e]) <> [].
Proof.
  rewrite removals_app. intros H E. apply app_eq_nil in E as [E _]. contradiction.
Qed.

Lemma joined_inv_step a c : joined_inv c -> joined_inv (step a c).
Proof.
  unfold joined_inv, reader_done. destruct c as [s r w sp l j]. cbn [joined rpc log].
  intros H.
  destruct a, r, w, sp; cbn beta iota in H; unfold_step; split_step;
    try exact H;
    try (intros Hj; destruct (H Hj) as [Hd Hl]; first
           [ discriminate Hd
           | split; [reflexivity | first [exact Hl | now apply removals_snoc_nonempty]] ]).
  all: cbn in *; try discriminate.
  all: intros Hj; split; try reflexivity.
  all: first [congruence | destruct (H Hj) as [_ Hl]; congruence].
Qed.

Lemma joined_inv_reachable sched : joined_inv (exec sched init).
Proof.
  assert (G : forall c, joined_inv c -> joined_inv (exec sched c)).
  { induction sched as [|a sched IH]; intros c Hc; [exact Hc|].
    apply IH, joined_inv_step, Hc. }
  apply G. intros H. discriminate H.
Qed.



(** ** Exceptions at the unit boundary *)

Lemma silent_app l e : silent (l ++ [e]) = silent l ++ silent [e].
Proof. induction l as [|[] l IH]; cbn; now rewrite ?IH. Qed.

Lemma removals_silent l : removals (silent l) = removals l.
Proof. induction l as [|[] l IH]; cbn; now rewrite ?IH. Qed.

Lemma written_silent l : written (silent l) = written l.
Proof. induction l as [|[] l IH]; cbn; now rewrite ?IH. Qed.

(** The lines on standard output have no influence on what the units, the
    server and the reaper do. *)
Lemma same_but_stdout_step a c1 c2 :
  same_but_stdout c1 c2 -> same_but_stdout (step a c1) (step a c2).
Proof.
  unfold same_but_stdout.
  destruct c1 as [s r w sp l1 j], c2 as [s2 r2 w2 sp2 l2 j2]. cbn [sess rpc wpc spc log joined].
  intros (<- & <- & <- & <- & <- & Hl).
  assert (Hr : removals l1 = removals l2)
    by now rewrite <- (removals_silent l1), Hl, removals_silent.
  destruct a, r, w, sp; unfold_step; unfold reader_done; cbn [rpc];
    rewrite <- ?Hr; split_step;
    rewrite ?silent_app, ?Hl; repeat split; try assumption; try reflexivity.
Qed.

Lemma same_but_stdout_exec rest : forall c1 c2,
  same_but_stdout c1 c2 -> same_but_stdout (exec rest c1) (exec rest c2).
Proof.
  induction rest as [|a rest IH]; intros c1 c2 H; [exact H|].
  apply IH, same_but_stdout_step, H.
Qed.

(** [onReaderShutdown] from entry to return: the reader has returned, its
    bit is set, and a writer that was blocked has been woken. *)
Lemma reader_shutdown_runs c :
  handshake_inv c -> rpc c = RShutdown -> wpc c <> WEnterBlock ->
  reader_done (exec [Reader; Reader] c) = true /\
  has (_state (sess (exec [Reader; Reader] c))) READER_TERMINATED = true /\
  wpc (exec [Reader; Reader] c) <> WBlocked /\
  wpc (exec [Reader; Reader] c) <> WEnterBlock.
Proof.
  intros [_ Hb _ _ _]. unfold writer_old in Hb.
  destruct c as [s r w sp l j]. cbn [rpc wpc sess] in *. intros -> Hw.
  unfold exec. cbn [fold_left]. unfold_step.
  destruct (has (_state s) WRITER_TERMINATED); unfold_step;
    destruct w; try (exfalso; apply Hw; reflexivity); try discriminate Hb;
    cbn [_state with_state]; autorewrite with flags;
    repeat split; first [reflexivity | discriminate].
Qed.

Lemma writer_advances_awake c :
  writer_inv c -> has (_state (sess c)) READER_TERMINATED = true ->
  wpc c <> WBlocked -> wpc c <> WEnterBlock ->
  (writer_rank (wpc (step Writer c)) <= pred (writer_rank (wpc c)))%nat /\
  rpc (step Writer c) = rpc c /\
  has (_state (sess (step Writer c))) READER_TERMINATED = true /\
  wpc (step Writer c) <> WBlocked /\ wpc (step Writer c) <> WEnterBlock.
Proof.
  unfold writer_inv. destruct c as [s r [] sp l j]; cbn [wpc sess]; intros Hi Hs Hb He;
    try (exfalso; apply Hb; reflexivity); try (exfalso; apply He; reflexivity);
    unfold_step; rewrite ?(may_proceed_flagged _ _ Hs), ?(getMessage_flagged _ _ Hs);
    unfold_step; cbn [writer_rank _state with_state];
    try (destruct (has old READER_TERMINATED); unfold_step;
         cbn [writer_rank _state with_state]);
    autorewrite with flags; try tauto;
    (split; [lia|]); (split; [reflexivity|]); (split; [assumption|]);
    split; discriminate.
Qed.

Lemma writer_runs_finish n : forall c,
  writer_inv c -> has (_state (sess c)) READER_TERMINATED = true ->
  wpc c <> WBlocked -> wpc c <> WEnterBlock ->
  (writer_rank (wpc c) <= n)%nat ->
  writer_done (exec (writer_runs n) c) = true /\
  rpc (exec (writer_runs n) c) = rpc c.
Proof.
  induction n as [|n IH]; intros c Hw Hs Hb He Hn.
  - cbn [writer_runs exec fold_left]. split; [|reflexivity].
    unfold writer_done. unfold writer_inv in Hw.
    destruct (wpc c); cbn [writer_rank] in Hn; first [reflexivity | lia].
  - change (exec (writer_runs (S n)) c) with (exec (writer_runs n) (step Writer c)).
    destruct (writer_advances_awake c Hw Hs Hb He) as (Hk & Hp & Hs' & Hb' & He').
    destruct (IH (step Writer c)) as [H1 H2]; auto using writer_inv_step; [lia|].
    split; [exact H1 | now rewrite <- Hp].
Qed.

(** [onWriterShutdown] from entry to return. *)
Lemma writer_shutdown_runs c :
  wpc c = WShutdown -> writer_done (exec (writer_runs 3) c) = true.
Proof.
  destruct c as [s r w sp l j]. cbn [wpc]. intros ->.
  unfold writer_runs, exec. cbn [fold_left]. unfold_step.
  destruct (has (_state s) READER_TERMINATED); reflexivity.
Qed.

Lemma reader_keeps_writer_done c :
  writer_done c = true -> writer_done (step Reader c) = true.
Proof.
  unfold writer_done. destruct c as [s r [] sp l j]; cbn [wpc]; intros H;
    try discriminate H.
  destruct r; unfold_step; try reflexivity.
  destruct (has old0 WRITER_TERMINATED); reflexivity.
Qed.

Lemma quiet_step_blocked a c :
  quiet a = true -> wpc c = WBlocked -> reader_done c = true ->
  wpc (step a c) = WBlocked /\ reader_done (step a c) = true /\
  removals (log (step a c)) = removals (log c).
Proof.
  unfold reader_done. destruct c as [s r w sp l j]. cbn [wpc rpc log].
  intros Hq -> Hr. destruct r; try discriminate Hr.
  destruct a; try discriminate Hq; unfold_step; try (now repeat split).
  - destruct sp, j; unfold_step; rewrite ?removals_app; cbn [removals];
      rewrite ?app_nil_r; now repeat split.
  - destruct (removals l) eqn:E; cbn [wpc rpc log]; [now repeat split|].
    destruct (reader_done _); cbn [wpc rpc log]; now repeat split.
Qed.

Lemma quiet_exec_blocked rest : forall c,
  forallb quiet rest = true -> wpc c = WBlocked -> reader_done c = true ->
  wpc (exec rest c) = WBlocked /\ removals (log (exec rest c)) = removals (log c).
Proof.
  induction rest as [|a rest IH]; intros c Hq Hw Hr; [now split|].
  cbn [forallb] in Hq. apply andb_true_iff in Hq as [Ha Hrest].
  destruct (quiet_step_blocked a c Ha Hw Hr) as (H1 & H2 & H3).
  destruct (IH _ Hrest H1 H2) as (G1 & G2).
  change (exec (a :: rest) c) with (exec rest (step a c)).
  rewrite G2, H3. now split.
Qed.




(** ** Messages for a session that no longer writes *)

(** C9: [sendMessage] is total and does not look at the state of the
    session; it appends at the tail of the queue.  For a session whose two
    units have returned the call still appends, and whatever happens
    afterwards the message stays in the queue, behind what was there and
    before what is sent later, and nothing is written to the socket. *)
Theorem sendMessage_always_appends sched msg rest :
  (forall s, _messages (sendMessage msg s) = _messages s ++ [msg] /\
             _state (sendMessage msg s) = _state s /\
             getName (sendMessage msg s) = getName s) /\
  (quiesced (exec sched init) = true ->
   _messages (sess (step (Sender msg) (exec sched init))) =
     _messages (sess (exec sched init)) ++ [msg] /\
   _messages (sess (exec (Sender msg :: rest) (exec sched init))) =
     _messages (sess (exec sched init)) ++ msg :: sends rest /\
   written (log (exec (Sender msg :: rest) (exec sched init))) =
     written (log (exec sched init)) /\
   quiesced (exec (Sender msg :: rest) (exec sched init)) = true).
Proof.
  split; [intros s; repeat split|].
  intros Hq.
  destruct (quiesced_step (Sender msg) _ Hq) as (_ & _ & _ & H1).
  destruct (quiesced_exec (Sender msg :: rest) _ Hq) as (G1 & _ & G3 & G4).
  repeat split; assumption.
Qed.

Lemma sendMessage_always_appends_witness :
  quiesced (exec finishing init) = true /\
  _messages (sess (exec (Sender "late" :: [Writer; Spurious; Writer; Sender "later"])
                        (exec finishing init))) = ["late"; "later"] /\
  written (log (exec (Sender "late" :: [Writer; Spurious; Writer; Sender "later"])
                     (exec finishing init))) = [].
Proof.
  assert (Hq : quiesced (exec finishing init) = true) by (vm_compute; reflexivity).
  destruct (proj2 (sendMessage_always_appends finishing "late"
                     [Writer; Spurious; Writer; Sender "later"]) Hq) as (_ & H2 & H3 & _).
  split; [exact Hq|]. split; [exact H2 | exact H3].
Defined.

(** ** Broadcast *)

Lemma deliver_all sender msg l : forall h r,
  NoDup l ->
  foldl (deliver sender msg) h l !! r =
    if decide (r <> sender /\ r ∈ l) then sendMessage msg <$> h !! r else h !! r.
Proof.
  induction l as [|x l IH]; intros h r Hnd.
  - cbn. destruct (decide _) as [[_ H]|_]; [inversion H | reflexivity].
  - apply NoDup_cons in Hnd as [Hx Hnd]. cbn [foldl]. rewrite IH by exact Hnd.
    assert (Hcons : r ∈ x :: l <-> r = x \/ r ∈ l) by apply elem_of_cons.
    unfold deliver.
    destruct (decide (x = sender)) as [->|Hxs].
    + destruct (decide (r <> sender /\ r ∈ l)) as [[H1 H2]|H];
        destruct (decide (r <> sender /\ r ∈ sender :: l)) as [[G1 G2]|G];
        try reflexivity; exfalso.
      * apply G. split; [exact H1 | apply Hcons; now right].
      * apply H. split; [exact G1|]. apply Hcons in G2 as [G2|G2]; [contradiction | exact G2].
    + destruct (decide (r = x)) as [->|Hrx].
      * rewrite lookup_alter_eq.
        destruct (decide (x <> sender /\ x ∈ l)) as [[_ H]|_]; [contradiction|].
        destruct (decide (x <> sender /\ x ∈ x :: l)) as [_|G]; [reflexivity|].
        exfalso. apply G. split; [exact Hxs | apply Hcons; now left].
      * rewrite lookup_alter_ne by congruence.
        destruct (decide (r <> sender /\ r ∈ l)) as [[H1 H2]|H];
          destruct (decide (r <> sender /\ r ∈ x :: l)) as [[G1 G2]|G];
          try reflexivity; exfalso.
        -- apply G. split; [exact H1 | apply Hcons; now right].
        -- apply H. split; [exact G1|].
           apply Hcons in G2 as [G2|G2]; [contradiction | exact G2].
Qed.

Lemma registry_ok_lookup srv name client :
  registry_ok srv -> _namesToClients srv !! name = Some client ->
  exists s, heap srv !! client = Some s /\ getName s = Some name.
Proof.
  intros Hok H. specialize (Hok _ _ H). cbn in Hok.
  destruct (heap srv !! client) as [s|]; [|discriminate]. eauto.
Qed.

Lemma registry_ok_inj srv name1 name2 client :
  registry_ok srv ->
  _namesToClients srv !! name1 = Some client ->
  _namesToClients srv !! name2 = Some client -> name1 = name2.
Proof.
  intros Hok H1 H2.
  destruct (registry_ok_lookup _ _ _ Hok H1) as (s1 & Hs1 & Hn1).
  destruct (registry_ok_lookup _ _ _ Hok H2) as (s2 & Hs2 & Hn2). congruence.
Qed.

Lemma receivers_NoDup srv : registry_ok srv -> NoDup (receivers srv).
Proof.
  intros Hok. unfold receivers. apply NoDup_fmap_2_strong; [|apply NoDup_map_to_list].
  intros [n1 c1] [n2 c2] H1 H2 Hc. cbn in Hc. subst c2.
  apply elem_of_map_to_list in H1, H2. f_equal. eapply registry_ok_inj; eauto.
Qed.

Lemma elem_of_receivers srv r :
  r ∈ receivers srv <-> exists name, _namesToClients srv !! name = Some r.
Proof.
  unfold receivers. rewrite list_elem_of_fmap. split.
  - intros [[n c] [-> H]]. exists n. now apply elem_of_map_to_list.
  - intros [n H]. exists (n, r). split; [reflexivity|]. now apply elem_of_map_to_list.
Qed.

(** The registry stays consistent when a session enters, when a name
    is registered and when a message is broadcast. *)
Lemma registry_ok_new : registry_ok newServer.
Proof. intros name client H. cbn in H. now rewrite lookup_empty in H. Qed.

Lemma registry_ok_enter client srv :
  heap srv !! client = None -> registry_ok srv -> registry_ok (enter_client client srv).
Proof.
  intros Hfresh Hok name c H. cbn in *.
  destruct (registry_ok_lookup _ _ _ Hok H) as (s & Hs & Hn).
  rewrite lookup_insert_ne by congruence. now rewrite Hs.
Qed.

Lemma registry_ok_setClientName client name srv b srv' :
  registry_ok srv -> setClientName client name srv = Some (b, srv') -> registry_ok srv'.
Proof.
  intros Hok. unfold setClientName.
  destruct (_namesToClients srv !! name) eqn:En; [intros [= <- <-]; exact Hok|].
  destruct (heap srv !! client) as [s|] eqn:Es; [|discriminate].
  unfold setName. destruct (_nameValid s) eqn:Ev; [discriminate|].
  intros [= <- <-]. intros n c H. cbn in *.
  destruct (decide (name = n)) as [->|Hne].
  - rewrite lookup_insert_eq in H. injection H as <-.
    now rewrite lookup_insert_eq.
  - rewrite lookup_insert_ne in H by exact Hne.
    destruct (registry_ok_lookup _ _ _ Hok H) as (s0 & Hs0 & Hn0).
    destruct (decide (client = c)) as [->|Hc].
    + rewrite Es in Hs0. injection Hs0 as <-. unfold getName in Hn0.
      rewrite Ev in Hn0. discriminate.
    + rewrite lookup_insert_ne by exact Hc. now rewrite Hs0.
Qed.

Lemma registry_ok_broadcast sender msg srv :
  registry_ok srv -> registry_ok (broadcast sender msg srv).
Proof.
  intros Hok name c H. cbn in *.
  destruct (registry_ok_lookup _ _ _ Hok H) as (s & Hs & Hn).
  rewrite deliver_all by now apply receivers_NoDup.
  rewrite Hs. now case_decide.
Qed.

(** C5, as stated, fails: a live session that has not yet given a name is
    in the live-set but gets no message. *)
Lemma broadcast_skips_unnamed_live_session :
  2%nat ∈ _clients alice_and_guest /\
  _messages <$> heap alice_and_guest !! 2%nat = Some [] /\
  _messages <$> heap (broadcast 1 "hello" alice_and_guest) !! 2%nat = Some [].
Proof. split; [|split]; vm_compute; reflexivity. Qed.

(** C5, amended: a broadcast by [sender] appends the message once to the
    queue of every other session that is in the name map at that moment,
    leaves the sender's own queue alone, and leaves alone every session
    that is not in the name map (a live session without a name among
    them); nothing else in the server changes. *)
Theorem broadcast_reaches_named_others srv sender msg r :
  registry_ok srv ->
  heap (broadcast sender msg srv) !! sender = heap srv !! sender /\
  (r <> sender -> (exists name, _namesToClients srv !! name = Some r) ->
   exists s, heap srv !! r = Some s /\
             heap (broadcast sender msg srv) !! r = Some (sendMessage msg s) /\
             _messages (sendMessage msg s) = _messages s ++ [msg]) /\
  ((forall name, _namesToClients srv !! name <> Some r) ->
   heap (broadcast sender msg srv) !! r = heap srv !! r) /\
  _namesToClients (broadcast sender msg srv) = _namesToClients srv /\
  _clients (broadcast sender msg srv) = _clients srv /\
  _clientsToRemove (broadcast sender msg srv) = _clientsToRemove srv.
Proof.
  intros Hok. pose proof (receivers_NoDup _ Hok) as Hnd.
  cbn [broadcast with_heap heap _namesToClients _clients _clientsToRemove].
  repeat split.
  - rewrite deliver_all by exact Hnd. case_decide as H; [|reflexivity]. now destruct H.
  - intros Hr [name Hn].
    destruct (registry_ok_lookup _ _ _ Hok Hn) as (s & Hs & _).
    exists s. split; [exact Hs|]. split; [|reflexivity].
    rewrite deliver_all by exact Hnd. rewrite Hs.
    case_decide as H; [reflexivity|]. exfalso. apply H. split; [exact Hr|].
    apply elem_of_receivers. eauto.
  - intros Hn. rewrite deliver_all by exact Hnd.
    case_decide as H; [|reflexivity]. destruct H as [_ H].
    apply elem_of_receivers in H as [name H]. now apply Hn in H.
Qed.

Lemma broadcast_reaches_named_others_witness :
  registry_ok alice_and_bob /\
  _messages <$> heap (broadcast 1 "hello" alice_and_bob) !! 2%nat = Some ["hello"] /\
  _messages <$> heap (broadcast 1 "hello" alice_and_bob) !! 1%nat = Some [].
Proof.
  assert (Hok : registry_ok alice_and_bob)
    by (apply (bool_decide_unpack _); vm_compute; reflexivity).
  destruct (broadcast_reaches_named_others alice_and_bob 1 "hello" 2 Hok)
    as (H1 & H2 & _).
  split; [exact Hok|]. split.
  - destruct H2 as (s & Hs & Hb & Hm); [lia | exists "bob"; reflexivity |].
    rewrite Hb. cbn [fmap option_fmap option_map]. rewrite Hm. f_equal.
    vm_compute in Hs. injection Hs as <-. reflexivity.
  - rewrite H1. vm_compute. reflexivity.
Defined.

(** ** Name registration and the login loop *)

Lemma setClientName_spec client name srv s :
  heap srv !! client = Some s -> getName s = None ->
  match _namesToClients srv !! name with
  | None =>
      exists s', setName name s = Some s' /\ getName s' = Some name /\
      setClientName client name srv =
        Some (true, with_names (<[name := client]> (_namesToClients srv))
                      (with_heap (<[client := s']> (heap srv)) srv))
  | Some _ => setClientName client name srv = Some (false, srv)
  end.
Proof.
  intros Hs Hn. unfold setClientName.
  destruct (_namesToClients srv !! name); [reflexivity|].
  rewrite Hs. unfold getName in Hn. unfold setName.
  destruct (_nameValid s); [discriminate|]. eexists. repeat split.
Qed.

(** Once a name is in the map, every further attempt on it fails and
    changes nothing. *)
Lemma registerAll_taken name clients srv owner :
  _namesToClients srv !! name = Some owner ->
  registerAll name clients srv = Some (repeat false (length clients), srv).
Proof.
  intros Ht. induction clients as [|c cs IH]; [reflexivity|].
  cbn [registerAll]. unfold setClientName. rewrite Ht, IH. reflexivity.
Qed.

Lemma registerAll_first_wins name first others srv s :
  _namesToClients srv !! name = None ->
  heap srv !! first = Some s -> getName s = None ->
  exists srv',
    registerAll name (first :: others) srv =
      Some (true :: repeat false (length others), srv') /\
    _namesToClients srv' !! name = Some first.
Proof.
  intros Hfree Hs Hn.
  pose proof (setClientName_spec first name srv s Hs Hn) as H. rewrite Hfree in H.
  destruct H as (s' & _ & _ & H).
  eexists. cbn [registerAll]. rewrite H.
  rewrite (registerAll_taken name others _ first) by (cbn; apply lookup_insert_eq).
  split; [reflexivity | cbn; apply lookup_insert_eq].
Qed.

(** C6, as stated, fails: the name is taken, the reply is sent, but the
    state is no longer [ALL_RUNNING] at the next test of the loop and the
    client is not prompted again; its next line is not read as a name. *)
Lemma taken_name_without_new_prompt :
  socket_out (loginLoop terminated_after_first 0 ["alice"; "bob"] 2 alice_and_guest) =
    [prompt; name_taken "alice"] /\
  login_end (loginLoop terminated_after_first 0 ["alice"; "bob"] 2 alice_and_guest) =
    NotRunning /\
  unread (loginLoop terminated_after_first 0 ["alice"; "bob"] 2 alice_and_guest) = ["bob"].
Proof. vm_compute. repeat split. Qed.

(** The scenario of the specification: alice is taken, bob is free. *)
Example alice_then_bob :
  socket_out (loginLoop always_running 0 ["alice"; "bob"] 2 alice_and_guest) =
    [ "What's your name?" +:+ nl;
      "Name 'alice' is already taken, invent another one." +:+ nl;
      "What's your name?" +:+ nl;
      "Welcome to the chat, bob!" +:+ nl ] /\
  login_end (loginLoop always_running 0 ["alice"; "bob"] 2 alice_and_guest) = LoggedIn.
Proof. vm_compute. repeat split. Qed.

(** C6, amended: [setClientName] for a session without a name succeeds
    exactly when the name is not in the map, and then puts it there; the
    first of several attempts on a free name wins and all later ones
    fail.  In the login loop a failed attempt is answered with the
    name-taken line, and the client is prompted again if [_state] is still
    [ALL_RUNNING] at the next test of the loop, otherwise the loop ends; a
    successful attempt is answered with the welcome line and ends the
    loop. *)
Theorem registration_is_exclusive srv self s name others observe k rest :
  heap srv !! self = Some s -> getName s = None ->
  observe k = ALL_RUNNING ->
  (exists b srv',
     setClientName self name srv = Some (b, srv') /\
     (b = true <-> _namesToClients srv !! name = None) /\
     (b = true -> _namesToClients srv' !! name = Some self) /\
     (b = false -> srv' = srv)) /\
  (_namesToClients srv !! name = None ->
   exists srv',
     registerAll name (self :: others) srv =
       Some (true :: repeat false (length others), srv') /\
     loginLoop observe k (name :: rest) self srv =
       mkLogin ["What's your name?" +:+ nl;
                "Welcome to the chat, " +:+ name +:+ "!" +:+ nl]
               LoggedIn
               (with_names (<[name := self]> (_namesToClients srv))
                  (with_heap (<[self := {| _name := name; _nameValid := true;
                                           _messages := _messages s;
                                           _state := _state s |}]> (heap srv)) srv))
               rest) /\
  (forall owner, _namesToClients srv !! name = Some owner ->
   registerAll name (self :: others) srv =
     Some (repeat false (S (length others)), srv) /\
   socket_out (loginLoop observe k (name :: rest) self srv) =
     ("What's your name?" +:+ nl) ::
     ("Name '" +:+ name +:+ "' is already taken, invent another one." +:+ nl) ::
     socket_out (loginLoop observe (S k) rest self srv) /\
   (observe (S k) = ALL_RUNNING ->
    exists more,
      socket_out (loginLoop observe (S k) rest self srv) =
        ("What's your name?" +:+ nl) :: more) /\
   (observe (S k) <> ALL_RUNNING ->
    loginLoop observe (S k) rest self srv = mkLogin [] NotRunning srv rest)).
Proof.
  intros Hs Hn Hk.
  pose proof (setClientName_spec self name srv s Hs Hn) as Hspec.
  split; [|split].
  - destruct (_namesToClients srv !! name) as [owner|] eqn:En.
    + exists false, srv. rewrite Hspec. repeat split; try congruence; discriminate.
    + destruct Hspec as (s' & _ & _ & H). eexists true, _. rewrite H.
      repeat split; try congruence; try discriminate.
      intros _. cbn. apply lookup_insert_eq.
  - intros Hfree.
    destruct (registerAll_first_wins name self others srv s Hfree Hs Hn) as (srv' & H1 & _).
    exists srv'. split; [exact H1|].
    rewrite Hfree in Hspec. destruct Hspec as (s' & Hs' & _ & H).
    destruct rest; cbn [loginLoop]; rewrite Hk, H; cbn [Z.eqb ALL_RUNNING negb];
      unfold setName in Hs'; unfold getName in Hn;
      destruct (_nameValid s); try discriminate; injection Hs' as <-; reflexivity.
  - intros owner Ht. rewrite Ht in Hspec. split; [|split; [|split]].
    + exact (registerAll_taken name (self :: others) srv owner Ht).
    + destruct rest; cbn [loginLoop]; rewrite Hk, Hspec; reflexivity.
    + intros Hk'. destruct rest as [|l rest]; cbn [loginLoop]; rewrite Hk';
        cbn [Z.eqb ALL_RUNNING negb]; [eexists; reflexivity|].
      destruct (setClientName self l srv) as [[[] ?]|]; eexists; reflexivity.
    + intros Hk'. destruct rest; cbn [loginLoop];
        destruct (Z.eqb_spec (observe (S k)) ALL_RUNNING); try contradiction; reflexivity.
Qed.

Lemma registration_is_exclusive_witness :
  heap alice_and_guest !! 2%nat = Some newSession /\
  (exists srv',
     registerAll "bob" [2; 1; 3]%nat alice_and_guest =
       Some ([true; false; false], srv')) /\
  socket_out (loginLoop always_running 0 ["alice"; "bob"] 2 alice_and_guest) =
    ("What's your name?" +:+ nl) ::
    ("Name 'alice' is already taken, invent another one." +:+ nl) ::
    socket_out (loginLoop always_running 1 ["bob"] 2 alice_and_guest).
Proof.
  assert (H1 : heap alice_and_guest !! 2%nat = Some newSession)
    by (vm_compute; reflexivity).
  assert (H2 : getName newSession = None) by reflexivity.
  assert (H3 : always_running 0 = ALL_RUNNING) by reflexivity.
  assert (Hfree : _namesToClients alice_and_guest !! "bob" = None)
    by (vm_compute; reflexivity).
  assert (Htaken : _namesToClients alice_and_guest !! "alice" = Some 1%nat)
    by (vm_compute; reflexivity).
  split; [exact H1|]. split.
  - destruct (registration_is_exclusive alice_and_guest 2 newSession "bob" [1; 3]%nat
                always_running 0 [] H1 H2 H3) as (_ & P & _).
    destruct (P Hfree) as (srv' & Hr & _). exists srv'. exact Hr.
  - destruct (registration_is_exclusive alice_and_guest 2 newSession "alice" []
                always_running 0 ["bob"] H1 H2 H3) as (_ & _ & P).
    destruct (P 1%nat Htaken) as (_ & Hout & _). exact Hout.
Defined.

(** ** The reaper *)

(** C4, as stated, fails: the cleanup of the first session throws, the
    reaper logs it and returns; the second session stays in the
    reclamation queue and in the live-set, its name stays registered. *)
Lemma reaper_stops_at_first_failure :
  _clientsToRemove two_to_reap = [1; 2]%nat /\
  fst (reaperThread first_join_throws two_to_reap) =
    ReaperCaught "Resource deadlock avoided" /\
  _clientsToRemove (snd (reaperThread first_join_throws two_to_reap)) = [2%nat] /\
  2%nat ∈ _clients (snd (reaperThread first_join_throws two_to_reap)) /\
  _namesToClients (snd (reaperThread first_join_throws two_to_reap)) !! "bob" = Some 2%nat /\
  fst (reaperThread no_join_throws two_to_reap) = ReaperWaits /\
  _clients (snd (reaperThread no_join_throws two_to_reap)) = ∅.
Proof. repeat split; vm_compute; reflexivity. Qed.

(** C4, amended: when the cleanup of a session throws, the reaper prints
    one line with the message and its thread function returns; what is
    behind that session in the queue stays there, and the live-set and the
    name map are as before.  A session whose cleanup does not throw is
    taken out of the name map and the live-set, and the loop goes on with
    the next one unless the server is terminating and the live-set has
    become empty. *)
Theorem reaper_logs_and_stops join_throws srv client rest s :
  _clientsToRemove srv = client :: rest ->
  heap srv !! client = Some s ->
  has (_state s) READER_TERMINATED = true ->
  has (_state s) WRITER_TERMINATED = true ->
  (forall what, join_throws client = Some what ->
   reaperThread join_throws srv =
     (ReaperCaught what,
      print ("Reaper thread exception: " +:+ what +:+ nl) (with_queue rest srv))) /\
  (join_throws client = None -> client ∈ _clients srv ->
   (_isTerminating srv = false \/ _clients srv ∖ {[client]} <> ∅) ->
   reaperThread join_throws srv =
     reaperThread join_throws
       (with_clients (_clients srv ∖ {[client]})
          (with_names (erase_name (getName s) (_namesToClients srv))
             (with_queue rest srv)))).
Proof.
  intros Hq Hs Hr Hw. unfold reaperThread. rewrite Hq. cbn [reaperLoop].
  cbn [heap with_queue]. rewrite Hs. unfold waitToFinish. rewrite Hr, Hw. cbn [negb].
  split.
  - intros what Hj. rewrite Hj. reflexivity.
  - intros Hj Hin Hgo. rewrite Hj.
    cbn [_clients with_names with_queue with_clients _isTerminating _clientsToRemove].
    rewrite bool_decide_eq_true_2 by exact Hin.
    destruct Hgo as [Ht|Hne].
    + rewrite Ht. reflexivity.
    + rewrite (bool_decide_eq_false_2 _ Hne), andb_false_r. reflexivity.
Qed.

Lemma reaper_logs_and_stops_witness :
  reaperThread first_join_throws two_to_reap =
    (ReaperCaught "Resource deadlock avoided",
     print ("Reaper thread exception: Resource deadlock avoided" +:+ nl)
           (with_queue [2%nat] two_to_reap)).
Proof.
  assert (Hs : exists s, heap two_to_reap !! 1%nat = Some s /\
                         has (_state s) READER_TERMINATED = true /\
                         has (_state s) WRITER_TERMINATED = true)
    by (eexists; repeat split; vm_compute; reflexivity).
  destruct Hs as (s & Hs & Hr & Hw).
  apply (proj1 (reaper_logs_and_stops first_join_throws two_to_reap 1 [2%nat] s
                  eq_refl Hs Hr Hw)).
  reflexivity.
Defined.

(** ** The accept loop *)

Ltac unfold_accept :=
  cbv [Accept.step Accept.step_run Accept.step_shutdown Accept.set_srv
       Accept.set_mutex Accept.set_apc Accept.set_hpc Accept.set_next
       Accept.record Accept.srv Accept.mutex Accept.apc Accept.hpc Accept.next
       Accept.events Accept.run_holds Accept.shutdown_holds Accept.in_hand
       Accept.limit Accept.is_free].

Lemma accept_inv_init : Accept.accept_inv Accept.init.
Proof.
  split; cbn; try reflexivity; try discriminate.
  - intros _ H. inversion H.
  - intros x [H|H]; [now apply not_elem_of_empty in H | inversion H].
Qed.

Lemma not_elem_of_snoc {A} (x e : A) (l : list A) :
  x ∉ l -> x <> e -> x ∉ l ++ [e].
Proof.
  intros H1 H2 H. apply elem_of_app in H as [H|H]; [tauto|].
  apply list_elem_of_singleton in H. contradiction.
Qed.

Lemma accept_inv_step a st : Accept.accept_inv st -> Accept.accept_inv (Accept.step a st).
Proof.
  intros [Hm Hx Ha Hf Hh Hn].
  destruct st as [v m p h n ev]. revert Hm Hx Ha Hf Hh Hn. unfold_accept.
  intros Hm Hx Ha Hf Hh Hn.
  destruct a, p, h as [|[|c0 todo]| |]; cbn in Hm, Hx; try discriminate Hx; subst m;
    unfold_accept;
    repeat match goal with
           | |- context [if ?b then _ else _] => destruct b eqn:?; unfold_accept
           end.
  all: split; unfold_accept;
    cbn [_isTerminating _clients with_terminating with_heap with_clients
         enter_client Accept.terminate_client heap];
    try reflexivity; try (intros ? [=]; subst); try discriminate;
    try assumption; try (pose proof (Hh _ eq_refl); lia); try lia.
  all: try solve [intros Ht; first [ discriminate Ht | congruence
                                   | apply not_elem_of_snoc; [auto | discriminate]
                                   | auto ]].
  all: try solve [intros x Hxx; pose proof (Hn x) as Hnx;
                  try pose proof (Hh _ eq_refl);
                  rewrite ?elem_of_app, ?elem_of_union, ?elem_of_singleton,
                    ?list_elem_of_singleton in Hxx;
                  intuition (simplify_eq; lia)].
  all: try congruence.
  all: eapply Ha; reflexivity.
Qed.

Lemma accept_inv_reachable sched : Accept.accept_inv (Accept.exec sched Accept.init).
Proof.
  assert (G : forall st, Accept.accept_inv st -> Accept.accept_inv (Accept.exec sched st)).
  { induction sched as [|a sched IH]; intros st Hst; [exact Hst|].
    apply IH, accept_inv_step, Hst. }
  apply G, accept_inv_init.
Qed.

(** The flag is never cleared. *)
Lemma terminating_step a st :
  _isTerminating (Accept.srv st) = true ->
  _isTerminating (Accept.srv (Accept.step a st)) = true.
Proof.
  destruct st as [v m p h n ev]. unfold_accept. intros Ht.
  destruct a, p, h as [|[|c0 todo]| |]; unfold_accept;
    repeat match goal with
           | |- context [if ?b then _ else _] => destruct b eqn:?; unfold_accept
           end; cbn; first [assumption | congruence | reflexivity].
Qed.

Lemma dropped_step a c st :
  Accept.accept_inv st -> Accept.dropped c st -> Accept.dropped c (Accept.step a st).
Proof.
  intros [Hm Hx Ha Hf Hh Hn] [Hs He Ho Hd].
  destruct st as [v m p h n ev]. revert Hm Hx Ha Hf Hh Hn Hs He Ho Hd. unfold_accept.
  intros Hm Hx Ha Hf Hh Hn Hs He Ho Hd.
  destruct a, p, h as [|[|c0 todo]| |]; cbn in Hm, Hx; try discriminate Hx; subst m;
    unfold_accept;
    repeat match goal with
           | |- context [if ?b then _ else _] => destruct b eqn:?; unfold_accept
           end.
  all: split; unfold_accept;
    cbn [_isTerminating _clients with_terminating with_heap with_clients
         enter_client Accept.terminate_client heap];
    try assumption; try lia.
  all: try solve [intros [=]; subst;
                  first [ lia
                        | destruct (Hd eq_refl) as [[=] ?]
                        | destruct (Hd eq_refl) as [? ?]; split; congruence ]].
  all: try solve [apply not_elem_of_snoc;
                  [ assumption
                  | first [ discriminate
                          | intros [=]; subst; destruct (Hd eq_refl) as [[=] _] ] ]].
  all: try solve [match goal with
                  | |- ?c ∉ {[?x]} ∪ _ =>
                      assert (x <> c)
                        by (intros ->; destruct (Hd eq_refl) as [[=] _]);
                      rewrite elem_of_union, elem_of_singleton; intros [?|?];
                      [congruence | contradiction]
                  end].
  all: intros E; destruct (Hd E) as [_ [=]].
Qed.

Lemma dropped_exec rest : forall c st,
  Accept.accept_inv st -> Accept.dropped c st -> Accept.dropped c (Accept.exec rest st).
Proof.
  induction rest as [|a rest IH]; intros c st Hi Hd; [exact Hd|].
  apply IH; [now apply accept_inv_step | now apply dropped_step].
Qed.

Lemma no_start_after_flag_snoc ev e :
  Accept.no_start_after_flag ev ->
  ((exists c, e = Accept.EStarted c) -> Accept.EFlagSet ∉ ev) ->
  Accept.no_start_after_flag (ev ++ [e]).
Proof.
  intros Hev He pre post Heq c Hin.
  destruct (decide (post = [])) as [->|Hne]; [inversion Hin|].
  destruct (exists_last Hne) as (post' & e' & ->).
  rewrite app_comm_cons, app_assoc in Heq.
  apply app_inj_tail in Heq as [Heq ->].
  apply elem_of_app in Hin as [Hin|Hin].
  - exact (Hev _ _ Heq c Hin).
  - apply list_elem_of_singleton in Hin. apply He; [eauto|].
    rewrite Heq. apply elem_of_app. right. apply elem_of_cons. now left.
Qed.

Lemma no_start_after_flag_step a st :
  Accept.accept_inv st ->
  Accept.no_start_after_flag (Accept.events st) ->
  Accept.no_start_after_flag (Accept.events (Accept.step a st)).
Proof.
  intros [Hm Hx Ha Hf Hh Hn] Hev.
  destruct st as [v m p h n ev]. revert Hm Hx Ha Hf Hh Hn Hev. unfold_accept.
  intros Hm Hx Ha Hf Hh Hn Hev.
  destruct a, p, h as [|[|c0 todo]| |]; cbn in Hm, Hx; try discriminate Hx; subst m;
    unfold_accept;
    repeat match goal with
           | |- context [if ?b then _ else _] => destruct b eqn:?; unfold_accept
           end;
    try exact Hev;
    try solve [apply no_start_after_flag_snoc; [exact Hev | intros [? [=]]]].
  all: apply no_start_after_flag_snoc; [exact Hev | intros _; apply Hf; eapply Ha; reflexivity].
Qed.

Lemma no_start_after_flag_reachable sched :
  Accept.no_start_after_flag (Accept.events (Accept.exec sched Accept.init)).
Proof.
  assert (G : forall st, Accept.accept_inv st -> Accept.no_start_after_flag (Accept.events st) ->
                         Accept.no_start_after_flag (Accept.events (Accept.exec sched st))).
  { induction sched as [|a sched IH]; intros st Hi Hst; [exact Hst|].
    apply IH; [now apply accept_inv_step | now apply no_start_after_flag_step]. }
  apply G; [apply accept_inv_init|].
  intros pre post H. destruct pre; discriminate H.
Qed.

(** C10: when the test inside the critical section of [run] finds the
    flag set, the session in hand is dropped: it is not in the live-set
    and was not started, and that stays so whatever happens later.  In
    every execution no session is inserted and started after the flag was
    set. *)
Theorem no_session_started_after_terminating sched :
  (forall pre post client,
     Accept.events (Accept.exec sched Accept.init) = pre ++ Accept.EFlagSet :: post ->
     Accept.EStarted client ∉ post) /\
  (forall client rest,
     Accept.apc (Accept.exec sched Accept.init) = Accept.AInner client ->
     _isTerminating (Accept.srv (Accept.exec sched Accept.init)) = true ->
     Accept.events (Accept.step Accept.Run (Accept.exec sched Accept.init)) =
       Accept.events (Accept.exec sched Accept.init) ++ [Accept.EDiscarded client] /\
     (client ∉ _clients (Accept.srv (Accept.exec rest (Accept.exec sched Accept.init)))) /\
     (Accept.EStarted client ∉
       Accept.events (Accept.exec rest (Accept.exec sched Accept.init)))).
Proof.
  split.
  - intros pre post client H. exact (no_start_after_flag_reachable sched pre post H client).
  - intros client rest Hp Ht.
    pose proof (accept_inv_reachable sched) as Hi.
    assert (Hd : Accept.dropped client (Accept.exec sched Accept.init)).
    { destruct Hi as [_ _ _ _ Hh Hn].
      assert (Hl : Accept.limit (Accept.exec sched Accept.init) = client)
        by (unfold Accept.limit, Accept.in_hand; now rewrite Hp).
      assert (Hc : Accept.in_hand (Accept.exec sched Accept.init) = Some client)
        by (unfold Accept.in_hand; now rewrite Hp).
      split.
      - intros H. specialize (Hn client (or_introl H)). lia.
      - intros H. specialize (Hn client (or_intror H)). lia.
      - exact (Hh _ Hc).
      - intros _. now split. }
    destruct (dropped_exec rest _ _ Hi Hd) as [H1 H2 _ _].
    split; [|now split].
    destruct (Accept.exec sched Accept.init) as [v m p h n ev].
    cbn [Accept.apc Accept.srv] in Hp, Ht. subst p. unfold_accept. now rewrite Ht.
Qed.

Lemma no_session_started_after_terminating_witness :
  Accept.apc (Accept.exec Accept.shutdown_during_accept Accept.init) = Accept.AInner 1 /\
  _isTerminating (Accept.srv (Accept.exec Accept.shutdown_during_accept Accept.init)) = true /\
  (1%nat ∉ _clients (Accept.srv (Accept.exec [Accept.Run; Accept.Run; Accept.Run]
                       (Accept.exec Accept.shutdown_during_accept Accept.init)))) /\
  (Accept.EStarted 1 ∉
    Accept.events (Accept.exec [Accept.Run; Accept.Run; Accept.Run]
                     (Accept.exec Accept.shutdown_during_accept Accept.init))).
Proof.
  assert (Hp : Accept.apc (Accept.exec Accept.shutdown_during_accept Accept.init) =
               Accept.AInner 1) by (vm_compute; reflexivity).
  assert (Ht : _isTerminating (Accept.srv (Accept.exec Accept.shutdown_during_accept
                                             Accept.init)) = true)
    by (vm_compute; reflexivity).
  destruct (proj2 (no_session_started_after_terminating Accept.shutdown_during_accept)
              1%nat [Accept.Run; Accept.Run; Accept.Run] Hp Ht) as (_ & H1 & H2).
  repeat split; assumption.
Defined.

(** ** main *)

Lemma returned_after_flag_step a st :
  (Accept.apc st = Accept.AReturned -> _isTerminating (Accept.srv st) = true) ->
  Accept.apc (Accept.step a st) = Accept.AReturned ->
  _isTerminating (Accept.srv (Accept.step a st)) = true.
Proof.
  destruct st as [v m p h n ev]. cbn [Accept.apc Accept.srv]. intros H.
  destruct a, p, h as [|[|x todo]| |]; unfold_accept;
    repeat match goal with
           | |- context [if ?b then _ else _] => destruct b eqn:?; unfold_accept
           end;
    try discriminate; intros E; auto.
Qed.

(** [run] returns only after it has seen the flag. *)
Lemma returned_after_flag sched :
  Accept.apc (Accept.exec sched Accept.init) = Accept.AReturned ->
  _isTerminating (Accept.srv (Accept.exec sched Accept.init)) = true.
Proof.
  assert (G : forall st,
            (Accept.apc st = Accept.AReturned -> _isTerminating (Accept.srv st) = true) ->
            Accept.apc (Accept.exec sched st) = Accept.AReturned ->
            _isTerminating (Accept.srv (Accept.exec sched st)) = true).
  { induction sched as [|a sched IH]; intros st H; [exact H|].
    apply IH. now apply returned_after_flag_step. }
  apply G. discriminate.
Qed.




(** ** The order of the name map *)

Lemma string_compare_refl s : String.compare s s = Eq.
Proof.
  induction s as [|a s IH]; [reflexivity|]. cbn.
  unfold Ascii.compare. now rewrite N.compare_refl.
Qed.

Lemma string_compare_lt_trans s1 : forall s2 s3,
  String.compare s1 s2 = Lt -> String.compare s2 s3 = Lt -> String.compare s1 s3 = Lt.
Proof.
  induction s1 as [|a1 s1 IH]; intros [|a2 s2] [|a3 s3]; cbn; try congruence.
  unfold Ascii.compare.
  destruct (N.compare_spec (N_of_ascii a1) (N_of_ascii a2)) as [E12|L12|G12];
    destruct (N.compare_spec (N_of_ascii a2) (N_of_ascii a3)) as [E23|L23|G23];
    try congruence; intros H12 H23.
  - rewrite E12, E23, N.compare_refl. eauto.
  - rewrite E12. now apply N.compare_lt_iff in L23 as ->.
  - rewrite <- E23. now apply N.compare_lt_iff in L12 as ->.
  - assert (L13 : (N_of_ascii a1 < N_of_ascii a3)%N) by lia.
    now apply N.compare_lt_iff in L13 as ->.
Qed.

(** X1: [PtrLess] is a strict order with the null pointer below every
    string, and two keys are equivalent under it exactly when both are
    null or point to equal strings: the map is keyed by the name itself,
    and a null key meets no entry. *)
Theorem PtrLess_strict_order_on_names (a b c : option string) (s : string) :
  PtrLess a a = false /\
  (PtrLess a b = true -> PtrLess b c = true -> PtrLess a c = true) /\
  (PtrLess a b = true -> PtrLess b a = false) /\
  (PtrEquiv a b = true <-> a = b) /\
  PtrLess None (Some s) = true /\
  PtrEquiv None (Some s) = false.
Proof.
  repeat split.
  - destruct a as [x|]; [|reflexivity]. cbn. unfold String.ltb.
    now rewrite string_compare_refl.
  - destruct a as [x|], b as [y|], c as [z|]; cbn; try congruence.
    unfold String.ltb.
    destruct (String.compare x y) eqn:E1; try discriminate.
    destruct (String.compare y z) eqn:E2; try discriminate.
    now rewrite (string_compare_lt_trans _ _ _ E1 E2).
  - destruct a as [x|], b as [y|]; cbn; try congruence.
    unfold String.ltb. rewrite (String.compare_antisym y x).
    destruct (String.compare x y); cbn; congruence.
  - unfold PtrEquiv. destruct a as [x|], b as [y|]; cbn; intros H;
      try discriminate H; [|reflexivity].
    revert H. unfold String.ltb. rewrite (String.compare_antisym y x).
    destruct (String.compare x y) eqn:E; cbn; try discriminate.
    intros _. f_equal. now apply String.compare_eq_iff.
  - intros <-. unfold PtrEquiv. destruct a as [x|]; [|reflexivity]. cbn.
    unfold String.ltb. now rewrite string_compare_refl.
Qed.

Lemma PtrLess_strict_order_on_names_witness :
  PtrLess (Some "alice") (Some "bob") = true /\
  PtrLess (Some "bob") (Some "bobby") = true /\
  PtrLess (Some "alice") (Some "bobby") = true /\
  PtrLess (Some "bob") (Some "alice") = false.
Proof.
  assert (H1 : PtrLess (Some "alice") (Some "bob") = true) by reflexivity.
  assert (H2 : PtrLess (Some "bob") (Some "bobby") = true) by reflexivity.
  destruct (PtrLess_strict_order_on_names (Some "alice") (Some "bob") (Some "bobby")
              "alice") as (_ & Ht & Ha & _).
  split; [exact H1|]. split; [exact H2|]. split; [exact (Ht H1 H2) | exact (Ha H1)].
Defined.

(** ** What a session keeps through every execution *)

Lemma has_lor_mono x b f : has x f = true -> has (Z.lor x b) f = true.
Proof.
  unfold has. intros H. apply negb_true_iff, Z.eqb_neq in H.
  apply negb_true_iff, Z.eqb_neq. intros H0. apply H.
  rewrite Z.land_lor_distr_l in H0. now apply Z.lor_eq_0_iff in H0.
Qed.

(** A step leaves the state alone or sets bits in it. *)
Lemma step_state a c :
  _state (sess (step a c)) = _state (sess c) \/
  exists b, _state (sess (step a c)) = Z.lor (_state (sess c)) b.
Proof.
  destruct c as [s r w sp l j].
  destruct a, r, w, sp; unfold_step; split_step;
    cbn [_state with_state with_messages sendMessage _messages];
    first [now left | right; eexists; reflexivity].
Qed.

(** A step leaves a name that is set alone. *)
Lemma step_name a c n :
  getName (sess c) = Some n -> getName (sess (step a c)) = Some n.
Proof.
  destruct c as [s r w sp l j]. cbn [sess]. intros Hn.
  assert (Hv : _nameValid s = true)
    by (unfold getName in Hn; destruct (_nameValid s); [reflexivity | discriminate Hn]).
  destruct a, r, w, sp; unfold_step;
    try (unfold setName; rewrite Hv); unfold_step;
    repeat match goal with
           | |- context [if ?b then _ else _] => destruct b; unfold_step
           | |- context [match getMessage ?x with _ => _ end] =>
               let E := fresh "E" in
               destruct (getMessage x) eqn:E; unfold getMessage in E; unfold_step
           end;
    try exact Hn.
  all: destruct (negb (_state s =? ALL_RUNNING)); try discriminate;
    destruct (_messages s); try discriminate; inversion E; subst; exact Hn.
Qed.

Lemma exec_keeps_flag sched : forall c f,
  has (_state (sess c)) f = true ->
  has (_state (sess (exec sched c))) f = true.
Proof.
  induction sched as [|a sched IH]; intros c f H; [exact H|].
  apply IH. destruct (step_state a c) as [->|[b ->]]; [exact H|].
  now apply has_lor_mono.
Qed.

(** X2: the bits of [_state] are only ever set: a flag that is set stays
    set through every execution, so a state that has left [ALL_RUNNING]
    never returns to it. *)
Theorem flags_never_cleared sched c f :
  has (_state (sess c)) f = true ->
  has (_state (sess (exec sched c))) f = true /\
  (_state (sess (exec sched c)) <> ALL_RUNNING).
Proof.
  intros H. pose proof (exec_keeps_flag sched c f H) as G. split; [exact G|].
  intros E. apply has_nonzero in G. rewrite E in G. discriminate G.
Qed.

Lemma flags_never_cleared_witness :
  has (_state (sess (exec [Terminator] init))) READER_TERMINATION_REQUESTED = true /\
  has (_state (sess (exec finishing (exec [Terminator] init))))
      READER_TERMINATION_REQUESTED = true.
Proof.
  assert (H : has (_state (sess (exec [Terminator] init)))
                  READER_TERMINATION_REQUESTED = true) by reflexivity.
  split; [exact H|].
  exact (proj1 (flags_never_cleared finishing (exec [Terminator] init)
                  READER_TERMINATION_REQUESTED H)).
Defined.

(** X3: the name of a session is written once: when it is set, no step of
    any unit changes it, and a second [setName] is not carried out. *)
Theorem name_is_write_once sched c n other :
  getName (sess c) = Some n ->
  getName (sess (exec sched c)) = Some n /\
  setName other (sess (exec sched c)) = None.
Proof.
  intros H.
  assert (G : getName (sess (exec sched c)) = Some n).
  { revert c H. induction sched as [|a sched IH]; intros c H; [exact H|].
    apply IH, step_name, H. }
  split; [exact G|]. unfold getName in G. unfold setName.
  destruct (_nameValid (sess (exec sched c))); [reflexivity | discriminate G].
Qed.

Lemma name_is_write_once_witness :
  getName (sess (exec [ReaderNamed "alice"] init)) = Some "alice" /\
  getName (sess (exec [ReaderNamed "bob"; Sender "hi"; Terminator]
                      (exec [ReaderNamed "alice"] init))) = Some "alice".
Proof.
  assert (H : getName (sess (exec [ReaderNamed "alice"] init)) = Some "alice")
    by reflexivity.
  split; [exact H|].
  exact (proj1 (name_is_write_once [ReaderNamed "bob"; Sender "hi"; Terminator]
                  (exec [ReaderNamed "alice"] init) "alice" "bob" H)).
Defined.

(** X4: a session that is in the reclamation queue has both done bits
    set, so the two assertions of [waitToFinish] hold for every session
    the handshake hands over; what [waitToFinish] does is then a matter of
    the joins alone. *)
Theorem enqueued_session_passes_assertions sched join_throws client :
  removals (log (exec sched init)) <> [] ->
  has (_state (sess (exec sched init))) READER_TERMINATED = true /\
  has (_state (sess (exec sched init))) WRITER_TERMINATED = true /\
  waitToFinish join_throws client (sess (exec sched init)) =
    match join_throws client with
    | Some what => JoinThrew what
    | None => Joined
    end.
Proof.
  intros Hne. destruct (handshake_inv_reachable sched) as [Hr Hw Hs _ Hq].
  rewrite Hq in Hne.
  assert (Hb : has (_state (sess (exec sched init))) READER_TERMINATED = true /\
               has (_state (sess (exec sched init))) WRITER_TERMINATED = true).
  { rewrite Hr, Hw. unfold reader_enqueued, writer_enqueued, reader_old, writer_old in *.
    destruct (rpc (exec sched init)) as [| |ro|ro],
             (wpc (exec sched init)) as [| | | | | |wo|wo|wo|];
      cbn in *; try (now split); try (exfalso; now apply Hne);
      try (rewrite Hs in Hne; exfalso; now apply Hne);
      destruct (has wo READER_TERMINATED); try (exfalso; now apply Hne); discriminate Hs. }
  destruct Hb as [H1 H2]. repeat split; try assumption.
  unfold waitToFinish. now rewrite H1, H2.
Qed.

Lemma enqueued_session_passes_assertions_witness :
  removals (log (exec writer_first init)) <> [] /\
  waitToFinish no_join_throws 1 (sess (exec writer_first init)) = Joined.
Proof.
  assert (H : removals (log (exec writer_first init)) <> [])
    by (vm_compute; discriminate).
  split; [exact H|].
  exact (proj2 (proj2 (enqueued_session_passes_assertions writer_first
                         no_join_throws 1 H))).
Defined.

(** ** The handshake at every moment, and its progress *)


(** X6: the writer never takes the front of an empty queue: when it is
    past the wait with [_state == ALL_RUNNING] the queue holds a message,
    whatever the other threads did meanwhile. *)
Theorem writer_pops_only_nonempty_queue sched :
  wpc (exec sched init) <> WUndefined /\
  (wpc (exec sched init) = WWoken ->
   _state (sess (exec sched init)) = ALL_RUNNING ->
   _messages (sess (exec sched init)) <> [] /\
   getMessage (sess (exec sched init)) <> FrontOfEmpty).
Proof.
  pose proof (writer_inv_reachable sched) as H. unfold writer_inv in H.
  split.
  - intros E. now rewrite E in H.
  - intros Hw Hs. rewrite Hw in H. unfold writer_may_proceed in H.
    unfold getMessage. rewrite Hs in *. cbn [Z.eqb ALL_RUNNING negb orb] in *.
    destruct (_messages (sess (exec sched init))); [discriminate H|].
    split; discriminate.
Qed.

Lemma writer_pops_only_nonempty_queue_witness :
  wpc (exec [Sender "hi"; Writer] init) = WWoken /\
  _messages (sess (exec [Sender "hi"; Writer] init)) <> [].
Proof.
  assert (Hw : wpc (exec [Sender "hi"; Writer] init) = WWoken) by reflexivity.
  assert (Hs : _state (sess (exec [Sender "hi"; Writer] init)) = ALL_RUNNING)
    by reflexivity.
  split; [exact Hw|].
  exact (proj1 (proj2 (writer_pops_only_nonempty_queue [Sender "hi"; Writer]) Hw Hs)).
Defined.

(** ** A wake-up that is lost *)

(** X7: the notification of [onReaderShutdown] can be lost.  When the
    reader finishes between the writer's test of the wait predicate and
    the moment the writer blocks, the writer blocks although the predicate
    holds by then, and no step of the reader, of the writer or of
    [terminate] releases it: the session is not handed over until a
    message is sent to it or the wait wakes by itself. *)
Theorem reader_wakeup_can_be_lost rest :
  forallb quiet rest = true ->
  wpc (exec (missed_wakeup ++ rest) init) = WBlocked /\
  reader_done (exec (missed_wakeup ++ rest) init) = true /\
  writer_may_proceed (sess (exec (missed_wakeup ++ rest) init)) = true /\
  removals (log (exec (missed_wakeup ++ rest) init)) = [].
Proof.
  intros Hq. rewrite exec_app.
  assert (G : forall c, wpc c = WBlocked -> reader_done c = true ->
            wpc (exec rest c) = WBlocked /\ reader_done (exec rest c) = true /\
            removals (log (exec rest c)) = removals (log c)).
  { induction rest as [|a rest IH]; intros c Hw Hr; [now repeat split|].
    cbn [forallb] in Hq. apply andb_true_iff in Hq as [Ha Hrest].
    destruct (quiet_step_blocked a c Ha Hw Hr) as (H1 & H2 & H3).
    destruct (IH Hrest _ H1 H2) as (G1 & G2 & G3).
    change (exec (a :: rest) c) with (exec rest (step a c)).
    rewrite G3, H3. now repeat split. }
  destruct (G (exec missed_wakeup init) eq_refl eq_refl) as (H1 & H2 & H3).
  rewrite H1, H2, H3. repeat split.
  apply may_proceed_flagged with (f := READER_TERMINATED).
  apply exec_keeps_flag. reflexivity.
Qed.

Lemma reader_wakeup_can_be_lost_witness :
  wpc (exec (missed_wakeup ++ [Terminator; Terminator; Writer; Reader]) init) = WBlocked /\
  removals (log (exec (missed_wakeup ++ [Terminator; Terminator; Writer; Reader]) init)) = [].
Proof.
  destruct (reader_wakeup_can_be_lost [Terminator; Terminator; Writer; Reader] eq_refl)
    as (H1 & _ & _ & H4).
  split; [exact H1 | exact H4].
Defined.

(** ** The outbound queue is first in, first out *)

Lemma fifo_step a c f :
  writer_inv c ->
  (f = [] \/ writer_left c = true /\ length f = 1%nat) ->
  written (log (step a c)) ++ (f ++ failed [a] c) ++ in_flight (step a c) ++
    _messages (sess (step a c)) =
  (written (log c) ++ f ++ in_flight c ++ _messages (sess c)) ++ accepted [a] c /\
  (f ++ failed [a] c = [] \/
   writer_left (step a c) = true /\ length (f ++ failed [a] c) = 1%nat).
Proof.
  unfold writer_inv, writer_left, in_flight.
  destruct c as [s r w sp l j]. cbn [wpc sess log failed accepted]. intros Hi Hf.
  destruct a, r, w, sp; unfold_step; split_step;
    cbn [_state with_state with_messages sendMessage _messages app];
    rewrite ?written_app; cbn [written]; rewrite ?app_nil_r;
    try contradiction;
    (destruct Hf as [->|[Hl Hlen]]; [|try discriminate Hl]);
    cbn [app]; rewrite ?app_nil_r;
    (split;
     [ rewrite <- ?app_assoc; cbn [app]; try reflexivity
     | first [ left; reflexivity | right; split; [reflexivity | assumption] 
             | right; split; reflexivity ] ]).
Qed.

Lemma fifo_exec sched : forall c f,
  writer_inv c ->
  (f = [] \/ writer_left c = true /\ length f = 1%nat) ->
  written (log (exec sched c)) ++ (f ++ failed sched c) ++ in_flight (exec sched c) ++
    _messages (sess (exec sched c)) =
  (written (log c) ++ f ++ in_flight c ++ _messages (sess c)) ++ accepted sched c /\
  (f ++ failed sched c = [] \/
   writer_left (exec sched c) = true /\ length (f ++ failed sched c) = 1%nat).
Proof.
  induction sched as [|a sched IH]; intros c f Hi Hf.
  - cbn [exec fold_left failed accepted]. rewrite !app_nil_r. now split.
  - destruct (fifo_step a c f Hi Hf) as [Hs Hf'].
    destruct (IH (step a c) (f ++ failed [a] c) (writer_inv_step a c Hi) Hf') as [He Hf''].
    change (exec (a :: sched) c) with (exec sched (step a c)).
    assert (Efail : forall g, g ++ failed (a :: sched) c =
                              (g ++ failed [a] c) ++ failed sched (step a c))
      by (intros g; cbn [failed]; now rewrite app_nil_r, app_assoc).
    assert (Eacc : accepted (a :: sched) c = accepted [a] c ++ accepted sched (step a c))
      by (cbn [accepted]; now rewrite app_nil_r).
    rewrite Efail, Eacc. split; [|exact Hf''].
    rewrite He, Hs. now rewrite <- !app_assoc.
Qed.

(** X8: the outbound queue is first in, first out, and nothing in it is
    written twice.  At every moment of every execution the messages that
    [sendMessage] has put into the queue are, in this order: those
    written to the socket, the one whose write threw (there is at most
    one; the writer stops there), the one the writer holds, and those
    still queued. *)
Theorem outbound_queue_is_fifo sched :
  accepted sched init =
    written (log (exec sched init)) ++ failed sched init ++
    in_flight (exec sched init) ++ _messages (sess (exec sched init)) /\
  (length (failed sched init) <= 1)%nat /\
  (failed sched init <> [] ->
   writer_left (exec sched init) = true /\ in_flight (exec sched init) = []).
Proof.
  destruct (fifo_exec sched init [] I (or_introl eq_refl)) as [He Hf].
  cbn [app] in He, Hf. split; [now rewrite He|]. split.
  - destruct Hf as [->|[_ ->]]; cbn; lia.
  - intros Hne. destruct Hf as [E|[Hl _]]; [contradiction|]. split; [exact Hl|].
    unfold writer_left in Hl. unfold in_flight.
    destruct (wpc (exec sched init)); try discriminate Hl; reflexivity.
Qed.

Lemma outbound_queue_is_fifo_witness :
  failed [Sender "a"; Sender "b"; Writer; Writer; WriterThrows "Broken pipe"; Sender "c"]
         init = ["a"] /\
  writer_left (exec [Sender "a"; Sender "b"; Writer; Writer; WriterThrows "Broken pipe";
                     Sender "c"] init) = true /\
  _messages (sess (exec [Sender "a"; Sender "b"; Writer; Writer;
                         WriterThrows "Broken pipe"; Sender "c"] init)) = ["b"; "c"].
Proof.
  assert (Hf : failed [Sender "a"; Sender "b"; Writer; Writer;
                       WriterThrows "Broken pipe"; Sender "c"] init = ["a"])
    by reflexivity.
  destruct (outbound_queue_is_fifo [Sender "a"; Sender "b"; Writer; Writer;
                                    WriterThrows "Broken pipe"; Sender "c"])
    as (He & _ & Hl).
  split; [exact Hf|]. split.
  - apply Hl. rewrite Hf. discriminate.
  - reflexivity.
Defined.

(** ** Chat lines *)

Lemma broadcast_lookup sender msg srv r :
  registry_ok srv ->
  heap (broadcast sender msg srv) !! r =
    if decide (r <> sender /\ r ∈ receivers srv)
    then sendMessage msg <$> heap srv !! r else heap srv !! r.
Proof. intros Hok. cbn. apply deliver_all, receivers_NoDup, Hok. Qed.

Lemma terminate_all_messages l : forall srv x,
  _messages <$> heap (foldl (fun v c => Accept.terminate_client c v) srv l) !! x =
    _messages <$> heap srv !! x /\
  _namesToClients (foldl (fun v c => Accept.terminate_client c v) srv l) =
    _namesToClients srv.
Proof.
  induction l as [|c l IH]; intros srv x; [now split|].
  cbn [foldl]. destruct (IH (Accept.terminate_client c srv) x) as [-> ->].
  split; [|reflexivity]. cbn.
  destruct (decide (c = x)) as [->|Hne].
  - rewrite lookup_alter_eq. now destruct (heap srv !! x).
  - now rewrite lookup_alter_ne.
Qed.

(** X9: what a session says reaches every other named session complete
    and in order.  For the lines a client sends, each line before the
    first [/quit] or [/shutdown] is appended, stamped and with the
    sender's name, to the queue of every other session in the name map,
    in the order sent; the sender's own queue and the name map are left
    alone, and no line after the command is delivered. *)
Theorem chat_lines_arrive_in_order clock k lines self srv r s :
  registry_ok srv -> r <> self ->
  (exists name, _namesToClients srv !! name = Some r) ->
  heap srv !! r = Some s ->
  _messages <$> heap (line_server (lineLoop clock k lines self srv)) !! r =
    Some (_messages s ++ said clock k (name_of self srv) lines) /\
  _messages <$> heap (line_server (lineLoop clock k lines self srv)) !! self =
    _messages <$> heap srv !! self /\
  _namesToClients (line_server (lineLoop clock k lines self srv)) = _namesToClients srv.
Proof.
  revert k self srv r s.
  induction lines as [|line rest IH]; intros k self srv r s Hok Hr Hn Hs.
  - cbn. rewrite Hs. cbn. now rewrite app_nil_r.
  - cbn [lineLoop said]. unfold parseLine, is_command.
    destruct (String.eqb line "/quit") eqn:Eq; cbn [orb].
    { cbn. rewrite Hs. cbn. now rewrite app_nil_r. }
    destruct (String.eqb line "/shutdown") eqn:Es.
    { cbn [line_server]. unfold shutdown. cbn [heap with_terminating _namesToClients].
      destruct (terminate_all_messages (elements (_clients srv)) srv r) as [-> ->].
      destruct (terminate_all_messages (elements (_clients srv)) srv self) as [-> _].
      rewrite Hs. cbn. now rewrite app_nil_r. }
    set (msg := chat_line (clock k) (name_of self srv) line).
    assert (Hself : heap (broadcast self msg srv) !! self = heap srv !! self).
    { rewrite broadcast_lookup by exact Hok.
      destruct (decide _) as [[H _]|_]; [contradiction | reflexivity]. }
    assert (Hrcv : heap (broadcast self msg srv) !! r = Some (sendMessage msg s)).
    { rewrite broadcast_lookup by exact Hok. rewrite Hs.
      destruct (decide _) as [_|H]; [reflexivity|]. exfalso. apply H.
      split; [exact Hr | now apply elem_of_receivers]. }
    assert (Hname : name_of self (broadcast self msg srv) = name_of self srv)
      by (unfold name_of; now rewrite Hself).
    destruct (IH (S k) self (broadcast self msg srv) r (sendMessage msg s)
                (registry_ok_broadcast _ _ _ Hok) Hr Hn Hrcv) as (H1 & H2 & H3).
    rewrite H1, H2, H3, Hname, Hself. cbn [sendMessage with_messages _messages].
    rewrite <- app_assoc. now repeat split.
Qed.

Lemma chat_lines_arrive_in_order_witness :
  registry_ok alice_and_bob /\
  _messages <$> heap (line_server (lineLoop (fun _ => "12:00") 0
                                     ["hello"; "how are you"; "/quit"; "unsent"]
                                     1 alice_and_bob)) !! 2%nat =
    Some ["12:00 alice: hello" +:+ nl; "12:00 alice: how are you" +:+ nl].
Proof.
  assert (Hok : registry_ok alice_and_bob)
    by (apply (bool_decide_unpack _); vm_compute; reflexivity).
  assert (Hs : exists s, heap alice_and_bob !! 2%nat = Some s /\ _messages s = [])
    by (eexists; split; vm_compute; reflexivity).
  destruct Hs as (s & Hs & Hm).
  assert (Hn : exists name, _namesToClients alice_and_bob !! name = Some 2%nat)
    by (exists "bob"; vm_compute; reflexivity).
  split; [exact Hok|].
  destruct (chat_lines_arrive_in_order (fun _ => "12:00") 0
              ["hello"; "how are you"; "/quit"; "unsent"] 1 alice_and_bob 2 s
              Hok ltac:(lia) Hn Hs) as (H1 & _).
  rewrite H1, Hm. reflexivity.
Defined.

(** ** The login loop as a whole *)

(** X10: the login loop never runs into the assertions of [setName] and
    [setClientName].  It ends logged in only under a name that was free
    and is then registered to this session, whose object carries it; when
    it ends otherwise the server is exactly as before: failed attempts
    leave no trace.  The registry stays consistent. *)
Theorem login_leaves_registry_consistent observe k lines self srv s :
  heap srv !! self = Some s -> getName s = None -> registry_ok srv ->
  login_end (loginLoop observe k lines self srv) <> AssertionFailed /\
  registry_ok (server_after (loginLoop observe k lines self srv)) /\
  (login_end (loginLoop observe k lines self srv) = LoggedIn ->
   exists name,
     name ∈ lines /\
     _namesToClients srv !! name = None /\
     _namesToClients (server_after (loginLoop observe k lines self srv)) !! name =
       Some self /\
     heap (server_after (loginLoop observe k lines self srv)) !! self ≫= getName =
       Some name) /\
  (login_end (loginLoop observe k lines self srv) <> LoggedIn ->
   server_after (loginLoop observe k lines self srv) = srv).
Proof.
  revert k self srv s.
  induction lines as [|name rest IH]; intros k self srv s Hs Hn Hok.
  - cbn [loginLoop]. destruct (negb (observe k =? ALL_RUNNING)); cbn;
      repeat split; try discriminate; try exact Hok.
  - cbn [loginLoop]. destruct (negb (observe k =? ALL_RUNNING)).
    { cbn. repeat split; try discriminate; exact Hok. }
    pose proof (setClientName_spec self name srv s Hs Hn) as Hspec.
    destruct (_namesToClients srv !! name) as [owner|] eqn:En.
    + rewrite Hspec. cbn [login_end server_after].
      destruct (IH (S k) self srv s Hs Hn Hok) as (H1 & H2 & H3 & H4).
      repeat split; try assumption.
      intros Hl. destruct (H3 Hl) as (n & Hin & Hrest). exists n.
      split; [now apply elem_of_cons; right | exact Hrest].
    + destruct Hspec as (s' & Hs' & Hn' & Hset). rewrite Hset.
      cbn [login_end server_after]. repeat split; try discriminate.
      * eapply registry_ok_setClientName; [exact Hok | exact Hset].
      * intros _. exists name. split; [now apply elem_of_cons; left|].
        split; [exact En|]. cbn. rewrite !lookup_insert_eq. cbn. now rewrite Hn'.
      * intros H. now contradiction H.
Qed.

Lemma login_leaves_registry_consistent_witness :
  registry_ok alice_and_guest /\
  login_end (loginLoop always_running 0 ["alice"; "bob"] 2 alice_and_guest) <>
    AssertionFailed /\
  registry_ok (server_after (loginLoop always_running 0 ["alice"; "bob"] 2 alice_and_guest)).
Proof.
  assert (Hok : registry_ok alice_and_guest)
    by (apply (bool_decide_unpack _); vm_compute; reflexivity).
  assert (Hs : heap alice_and_guest !! 2%nat = Some newSession)
    by (vm_compute; reflexivity).
  destruct (login_leaves_registry_consistent always_running 0 ["alice"; "bob"] 2
              alice_and_guest newSession Hs eq_refl Hok) as (H1 & H2 & _).
  split; [exact Hok|]. split; [exact H1 | exact H2].
Defined.

(** ** Reclamation *)

(** X11: the reaper only takes away.  Whatever the queue holds and
    however its loop ends, it leaves the session objects and the flag as
    they are, adds nothing to the live-set or to the name map, and prints
    nothing unless it caught an exception; it returns from its loop only
    when the server is terminating and the live-set has become empty, and
    it waits only with the queue used up. *)
Theorem reaper_only_removes join_throws srv :
  heap (snd (reaperThread join_throws srv)) = heap srv /\
  _isTerminating (snd (reaperThread join_throws srv)) = _isTerminating srv /\
  _clients (snd (reaperThread join_throws srv)) ⊆ _clients srv /\
  (forall n c, _namesToClients (snd (reaperThread join_throws srv)) !! n = Some c ->
               _namesToClients srv !! n = Some c) /\
  (fst (reaperThread join_throws srv) = ReaperReturned ->
   _isTerminating srv = true /\
   _clients (snd (reaperThread join_throws srv)) = ∅) /\
  (fst (reaperThread join_throws srv) = ReaperWaits ->
   _clientsToRemove (snd (reaperThread join_throws srv)) = []) /\
  ((forall what, fst (reaperThread join_throws srv) <> ReaperCaught what) ->
   cout (snd (reaperThread join_throws srv)) = cout srv).
Proof.
  unfold reaperThread. generalize (_clientsToRemove srv) as queue.
  intros queue. revert srv.
  induction queue as [|client rest IH]; intros srv.
  - cbn. repeat split; try discriminate; auto.
  - cbn [reaperLoop]. cbn [heap with_queue].
    destruct (heap srv !! client) as [s|] eqn:Es;
      [|cbn; repeat split; try discriminate; auto].
    destruct (waitToFinish join_throws client s) as [|what|];
      [| cbn; repeat split; try discriminate; auto; intros H; now contradiction (H what)
       | cbn; repeat split; try discriminate; auto].
    cbn [_clients with_names with_queue with_clients _isTerminating].
    destruct (bool_decide (client ∈ _clients srv));
      [|cbn; repeat split; try discriminate; auto].
    2: { intros n c. destruct (getName s) as [m|]; cbn; [|auto].
         intros H. apply lookup_delete_Some in H. tauto. }
    destruct (_isTerminating srv && bool_decide (_clients srv ∖ {[client]} = ∅)) eqn:Eb.
    + cbn. apply andb_true_iff in Eb as [Et Ee]. apply bool_decide_eq_true in Ee.
      repeat split; try discriminate; auto.
      * apply subseteq_difference_l. reflexivity.
      * intros n c. destruct (getName s) as [m|]; cbn; [|auto].
        intros H. apply lookup_delete_Some in H. tauto.
    + match goal with
      | |- context [reaperLoop join_throws rest ?v] =>
          destruct (IH v) as (H1 & H2 & H3 & H4 & H5 & H6 & H7)
      end.
      cbn [heap _isTerminating _clients _namesToClients cout with_clients with_names
           with_queue] in *.
      split; [exact H1|]. split; [exact H2|]. split.
      { etransitivity; [exact H3|]. apply subseteq_difference_l. reflexivity. }
      split.
      { intros n c H. apply H4 in H. destruct (getName s) as [m|]; cbn in H; [|auto].
        apply lookup_delete_Some in H. tauto. }
      split; [exact H5|]. split; [exact H6 | exact H7].
Qed.

Lemma reaper_only_removes_witness :
  fst (reaperThread no_join_throws (shutdown two_to_reap)) = ReaperReturned /\
  _clients (snd (reaperThread no_join_throws (shutdown two_to_reap))) = ∅.
Proof.
  assert (H : fst (reaperThread no_join_throws (shutdown two_to_reap)) = ReaperReturned)
    by (vm_compute; reflexivity).
  destruct (reaper_only_removes no_join_throws (shutdown two_to_reap))
    as (_ & _ & _ & _ & H5 & _).
  split; [exact H | exact (proj2 (H5 H))].
Defined.

(** X12: a name is free again once its session is reclaimed.  When the
    reaper takes a finished session with a name from the queue, the
    session leaves the live-set, its name leaves the map, and another
    session can register under that name. *)
Theorem name_is_free_after_reaping join_throws srv client s n fresh s2 :
  _clientsToRemove srv = [client] ->
  heap srv !! client = Some s ->
  has (_state s) READER_TERMINATED = true ->
  has (_state s) WRITER_TERMINATED = true ->
  join_throws client = None ->
  client ∈ _clients srv ->
  getName s = Some n ->
  heap srv !! fresh = Some s2 -> getName s2 = None ->
  fst (reaperThread join_throws srv) =
    (if _isTerminating srv && bool_decide (_clients srv ∖ {[client]} = ∅)
     then ReaperReturned else ReaperWaits) /\
  (client ∉ _clients (snd (reaperThread join_throws srv))) /\
  _namesToClients (snd (reaperThread join_throws srv)) !! n = None /\
  _clientsToRemove (snd (reaperThread join_throws srv)) = [] /\
  exists srv2,
    setClientName fresh n (snd (reaperThread join_throws srv)) = Some (true, srv2) /\
    _namesToClients srv2 !! n = Some fresh.
Proof.
  intros Hq Hs Hr Hw Hj Hin Hn Hf Hn2.
  unfold reaperThread. rewrite Hq. cbn [reaperLoop]. cbn [heap with_queue].
  rewrite Hs. unfold waitToFinish. rewrite Hr, Hw, Hj. cbn [negb].
  cbn [_clients with_names with_queue with_clients _isTerminating].
  rewrite (bool_decide_eq_true_2 _ Hin), Hn. cbn [erase_name].
  set (srv' := with_clients (_clients srv ∖ {[client]})
                 (with_names (delete n (_namesToClients srv)) (with_queue [] srv))).
  assert (E : reaperLoop join_throws [] srv' = (ReaperWaits, srv')) by reflexivity.
  assert (Hset : exists srv2, setClientName fresh n srv' = Some (true, srv2) /\
                              _namesToClients srv2 !! n = Some fresh).
  { pose proof (setClientName_spec fresh n srv' s2 Hf Hn2) as Hspec.
    assert (Hfree : _namesToClients srv' !! n = None) by (cbn; apply lookup_delete_eq).
    rewrite Hfree in Hspec. destruct Hspec as (s' & _ & _ & Hspec).
    eexists. split; [exact Hspec|]. cbn. apply lookup_insert_eq. }
  destruct (_isTerminating srv && bool_decide (_clients srv ∖ {[client]} = ∅));
    rewrite ?E; cbn [fst snd]; (split; [reflexivity|]);
    (split; [cbn; rewrite elem_of_difference, elem_of_singleton; tauto|]);
    (split; [cbn; apply lookup_delete_eq|]); (split; [reflexivity | exact Hset]).
Qed.

Lemma name_is_free_after_reaping_witness :
  _clientsToRemove (finished 1 alice_and_guest) = [1%nat] /\
  _namesToClients (finished 1 alice_and_guest) !! "alice" = Some 1%nat /\
  exists srv2,
    setClientName 2 "alice" (snd (reaperThread no_join_throws (finished 1 alice_and_guest))) =
      Some (true, srv2) /\
    _namesToClients srv2 !! "alice" = Some 2%nat.
Proof.
  assert (Hs : exists s, heap (finished 1 alice_and_guest) !! 1%nat = Some s /\
                         has (_state s) READER_TERMINATED = true /\
                         has (_state s) WRITER_TERMINATED = true /\
                         getName s = Some "alice")
    by (eexists; repeat split; vm_compute; reflexivity).
  destruct Hs as (s & Hs & Hr & Hw & Hn).
  assert (Hin : 1%nat ∈ _clients (finished 1 alice_and_guest))
    by (vm_compute; reflexivity).
  assert (Hf : heap (finished 1 alice_and_guest) !! 2%nat = Some newSession)
    by (vm_compute; reflexivity).
  destruct (name_is_free_after_reaping no_join_throws (finished 1 alice_and_guest)
              1 s "alice" 2 newSession eq_refl Hs Hr Hw eq_refl Hin Hn Hf eq_refl)
    as (_ & _ & _ & _ & Hre).
  split; [reflexivity|]. split; [vm_compute; reflexivity | exact Hre].
Defined.

(** ** The live-set under [run] and [shutdown] *)

Lemma liveset_inv_init : liveset_inv Accept.init.
Proof.
  split; cbn.
  - intros x. split; intros H; [now apply not_elem_of_empty in H | inversion H].
  - intros x H. now apply not_elem_of_empty in H.
Qed.

Lemma elem_of_snoc_ne {A} (x e : A) (l : list A) : x <> e -> x ∈ l ++ [e] <-> x ∈ l.
Proof.
  intros Hne. rewrite elem_of_app, list_elem_of_singleton. tauto.
Qed.

Lemma liveset_inv_step a st : liveset_inv st -> liveset_inv (Accept.step a st).
Proof.
  intros [Hs Hh].
  destruct st as [v m p h n ev]. revert Hs Hh. unfold_accept. intros Hs Hh.
  destruct a, p, h as [|[|c0 todo]| |]; unfold_accept;
    repeat match goal with
           | |- context [if ?b then _ else _] => destruct b eqn:?; unfold_accept
           end;
    try (split; assumption).
  all: split; unfold_accept;
    cbn [_clients heap with_terminating with_heap with_clients enter_client
         Accept.terminate_client];
    intros x; rewrite ?elem_of_snoc_ne by discriminate; try apply Hs; try apply Hh.
  all: try (rewrite elem_of_union, elem_of_singleton, elem_of_app, list_elem_of_singleton,
              Hs; split;
            [ intros [H|H]; [right; congruence | left; exact H]
            | intros [H|H]; [right; exact H | left; congruence] ]).
  all: try (intros Hx; destruct (decide (c0 = x)) as [->|Hne];
            [ rewrite lookup_alter_eq; destruct (Hh x Hx) as [s ->]; cbn; eauto
            | rewrite lookup_alter_ne by exact Hne; now apply Hh ]).
  all: rewrite elem_of_union, elem_of_singleton; intros [->|Hx];
    [ rewrite lookup_insert_eq; eauto
    | destruct (decide (client = x)) as [->|Hne];
      [ rewrite lookup_insert_eq; eauto
      | rewrite lookup_insert_ne by exact Hne; now apply Hh ] ].
Qed.

Lemma requested_alter c x (h : gmap nat ClientSession) :
  (exists s, h !! x = Some s /\ has (_state s) READER_TERMINATION_REQUESTED = true) ->
  exists s, alter (fun s => snd (fetch_or READER_TERMINATION_REQUESTED s)) c h !! x = Some s /\
            has (_state s) READER_TERMINATION_REQUESTED = true.
Proof.
  intros (s & Hs & Hb). destruct (decide (c = x)) as [->|Hne].
  - rewrite lookup_alter_eq, Hs. cbn. eexists. split; [reflexivity|].
    cbn. now apply has_lor_mono.
  - rewrite lookup_alter_ne by exact Hne. eauto.
Qed.

Lemma requested_here c (h : gmap nat ClientSession) :
  is_Some (h !! c) ->
  exists s, alter (fun s => snd (fetch_or READER_TERMINATION_REQUESTED s)) c h !! c = Some s /\
            has (_state s) READER_TERMINATION_REQUESTED = true.
Proof.
  intros [s Hs]. rewrite lookup_alter_eq, Hs. cbn. eexists. split; [reflexivity|].
  cbn. apply has_requested_set.
Qed.

Lemma shutdown_inv_init : shutdown_inv Accept.init.
Proof. split; cbn; [discriminate | discriminate]. Qed.

Lemma shutdown_inv_step a st :
  Accept.accept_inv st -> liveset_inv st -> shutdown_inv st ->
  shutdown_inv (Accept.step a st).
Proof.
  intros [Hm Hx Ha _ _ Hn] [_ Hh] [Hl Hf].
  destruct st as [v m p h n ev]. revert Hm Hx Ha Hn Hh Hl Hf. unfold_accept.
  intros Hm Hx Ha Hn Hh Hl Hf.
  destruct a, p, h as [|[|c0 todo]| |]; cbn in Hm, Hx; try discriminate Hx; subst m;
    unfold_accept;
    repeat match goal with
           | |- context [if ?b then _ else _] => destruct b eqn:?; unfold_accept
           end;
    try (split; assumption).
  all: unfold terminated in *; cbn [Accept.srv Accept.events] in *.
  all: split; unfold terminated; unfold_accept;
    cbn [_clients _isTerminating heap with_terminating with_heap with_clients
         enter_client Accept.terminate_client];
    try assumption.
  all: intros;
    repeat match goal with
           | H : Accept.STerminate _ = Accept.STerminate _ |- _ =>
               injection H as <-
           | H : Accept.AInsert _ = Accept.AInsert _ -> _ |- _ => specialize (H eq_refl)
           | H : forall c, Accept.AInsert _ = Accept.AInsert c -> _ |- _ =>
               specialize (H _ eq_refl)
           | H : true = true -> _ |- _ => specialize (H eq_refl)
           end;
    try discriminate; try congruence.
  all: try solve [eauto].
  all: try solve [rewrite elem_of_app; edestruct Hf as [? ?]; eauto].
  all: try solve [rewrite elem_of_app; edestruct Hl as [?|[? ?]]; eauto].
  all: try solve [left; now apply elem_of_elements].
  all: try solve
    [ match goal with
      | Hx : ?x ∈ _clients _ |- _ =>
          destruct (Hl _ x eq_refl Hx) as [Hin|[He Hs]];
          [ first
              [ now inversion Hin
              | apply elem_of_cons in Hin as [->|Hin];
                [ right; split;
                  [ rewrite elem_of_app; right; now apply list_elem_of_singleton
                  | apply requested_here, Hh; exact Hx ]
                | now left ] ]
          | first
              [ split; [rewrite elem_of_app; now left | exact Hs]
              | right; split; [rewrite elem_of_app; now left | now apply requested_alter] ] ]
      end ].
  all: match goal with
       | Ht : _isTerminating _ = true, Hx : ?x ∈ _clients _ |- _ =>
           destruct (Hf x Ht Hx) as [He Hs];
           split; [rewrite elem_of_app; now left | now apply requested_alter]
       end.
Qed.

Lemma accept_invs_reachable sched :
  Accept.accept_inv (Accept.exec sched Accept.init) /\
  liveset_inv (Accept.exec sched Accept.init) /\
  shutdown_inv (Accept.exec sched Accept.init).
Proof.
  assert (G : forall st,
            Accept.accept_inv st /\ liveset_inv st /\ shutdown_inv st ->
            Accept.accept_inv (Accept.exec sched st) /\
            liveset_inv (Accept.exec sched st) /\
            shutdown_inv (Accept.exec sched st)).
  { induction sched as [|a sched IH]; intros st H; [exact H|].
    destruct H as (H1 & H2 & H3). apply IH. split; [|split].
    - now apply accept_inv_step.
    - now apply liveset_inv_step.
    - now apply shutdown_inv_step. }
  apply G. split; [apply accept_inv_init|]. split; [apply liveset_inv_init|].
  apply shutdown_inv_init.
Qed.

Lemma clients_frozen_step a st :
  Accept.accept_inv st ->
  _isTerminating (Accept.srv st) = true ->
  _clients (Accept.srv (Accept.step a st)) = _clients (Accept.srv st).
Proof.
  intros [_ _ Ha _ _ _]. destruct st as [v m p h n ev]. revert Ha. unfold_accept.
  intros Ha Ht.
  destruct a, p, h as [|[|c0 todo]| |]; unfold_accept;
    repeat match goal with
           | |- context [if ?b then _ else _] => destruct b eqn:?; unfold_accept
           end; try reflexivity.
  all: rewrite (Ha _ eq_refl) in Ht; discriminate Ht.
Qed.

Lemma clients_frozen_exec rest : forall st,
  Accept.accept_inv st ->
  _isTerminating (Accept.srv st) = true ->
  _clients (Accept.srv (Accept.exec rest st)) = _clients (Accept.srv st).
Proof.
  induction rest as [|a rest IH]; intros st Hi Ht; [reflexivity|].
  change (Accept.exec (a :: rest) st) with (Accept.exec rest (Accept.step a st)).
  rewrite IH.
  - now apply clients_frozen_step.
  - now apply accept_inv_step.
  - now apply terminating_step.
Qed.

(** X13: [shutdown] misses no session.  In every execution of [run] and
    [shutdown], once [_isTerminating] is set these two leave the live-set
    as it is, and [terminate] has been called on every session in it:
    each has its termination flag set. *)
Theorem shutdown_reaches_every_live_session sched rest x :
  _isTerminating (Accept.srv (Accept.exec sched Accept.init)) = true ->
  _clients (Accept.srv (Accept.exec rest (Accept.exec sched Accept.init))) =
    _clients (Accept.srv (Accept.exec sched Accept.init)) /\
  (x ∈ _clients (Accept.srv (Accept.exec sched Accept.init)) ->
   Accept.ETerminate x ∈ Accept.events (Accept.exec sched Accept.init) /\
   exists s, heap (Accept.srv (Accept.exec sched Accept.init)) !! x = Some s /\
             has (_state s) READER_TERMINATION_REQUESTED = true).
Proof.
  intros Ht.
  destruct (accept_invs_reachable sched) as (Ha & Hl & Hs).
  split; [now apply clients_frozen_exec|].
  intros Hx. exact (sinv_flag _ Hs x Ht Hx).
Qed.

(** A session is started, then [shutdown] runs to its end. *)
Lemma shutdown_reaches_every_live_session_witness :
  (1%nat ∈ _clients (Accept.srv (Accept.exec
     [Accept.Run; Accept.Connection; Accept.Run; Accept.Run; Accept.Run; Accept.Run;
      Accept.Shutdown; Accept.Shutdown; Accept.Shutdown] Accept.init))) /\
  Accept.ETerminate 1 ∈ Accept.events (Accept.exec
     [Accept.Run; Accept.Connection; Accept.Run; Accept.Run; Accept.Run; Accept.Run;
      Accept.Shutdown; Accept.Shutdown; Accept.Shutdown] Accept.init).
Proof.
  pose (sched := [Accept.Run; Accept.Connection; Accept.Run; Accept.Run; Accept.Run;
                  Accept.Run; Accept.Shutdown; Accept.Shutdown; Accept.Shutdown]).
  assert (Ht : _isTerminating (Accept.srv (Accept.exec sched Accept.init)) = true)
    by (vm_compute; reflexivity).
  assert (Hx : 1%nat ∈ _clients (Accept.srv (Accept.exec sched Accept.init)))
    by (vm_compute; reflexivity).
  split; [exact Hx|].
  exact (proj1 (proj2 (shutdown_reaches_every_live_session sched [] 1%nat Ht) Hx)).
Defined.

(** X14: every session in the live-set was inserted and started by
    [run] and has its object; the insertion always adds a new element, as
    the assertion in [run] demands; and [run] and [shutdown] are never
    both inside their critical sections. *)
Theorem live_set_is_the_started_sessions sched x :
  (x ∈ _clients (Accept.srv (Accept.exec sched Accept.init)) ->
   Accept.EStarted x ∈ Accept.events (Accept.exec sched Accept.init)) /\
  (x ∈ _clients (Accept.srv (Accept.exec sched Accept.init)) ->
   is_Some (heap (Accept.srv (Accept.exec sched Accept.init)) !! x)) /\
  (Accept.apc (Accept.exec sched Accept.init) = Accept.AInsert x ->
   x ∉ _clients (Accept.srv (Accept.exec sched Accept.init))) /\
  Accept.run_holds (Accept.exec sched Accept.init) &&
    Accept.shutdown_holds (Accept.exec sched Accept.init) = false.
Proof.
  destruct (accept_invs_reachable sched) as ([_ Hx _ _ _ Hn] & [Hl Hh] & _).
  split; [apply Hl|]. split; [apply Hh|]. split; [|exact Hx].
  intros Hp Hin. specialize (Hn x (or_introl Hin)).
  unfold Accept.limit, Accept.in_hand in Hn. rewrite Hp in Hn. lia.
Qed.

Lemma live_set_is_the_started_sessions_witness :
  Accept.apc (Accept.exec [Accept.Run; Accept.Connection; Accept.Run; Accept.Run]
                Accept.init) = Accept.AInsert 1 /\
  (1%nat ∉ _clients (Accept.srv (Accept.exec
     [Accept.Run; Accept.Connection; Accept.Run; Accept.Run] Accept.init))).
Proof.
  assert (Hp : Accept.apc (Accept.exec [Accept.Run; Accept.Connection; Accept.Run;
                                        Accept.Run] Accept.init) = Accept.AInsert 1)
    by reflexivity.
  split; [exact Hp|].
  exact (proj1 (proj2 (proj2 (live_set_is_the_started_sessions
           [Accept.Run; Accept.Connection; Accept.Run; Accept.Run] 1%nat))) Hp).
Defined.

(** ** [shutdown] as a whole *)

Lemma terminate_all_lookup l : forall srv x,
  NoDup l ->
  heap (foldl (fun v c => Accept.terminate_client c v) srv l) !! x =
    if decide (x ∈ l)
    then (fun s => snd (fetch_or READER_TERMINATION_REQUESTED s)) <$> heap srv !! x
    else heap srv !! x.
Proof.
  induction l as [|c l IH]; intros srv x Hnd.
  - cbn. destruct (decide _) as [H|_]; [inversion H | reflexivity].
  - apply NoDup_cons in Hnd as [Hc Hnd]. cbn [foldl]. rewrite IH by exact Hnd.
    assert (Hcons : x ∈ c :: l <-> x = c \/ x ∈ l) by apply elem_of_cons.
    cbn [Accept.terminate_client heap with_heap].
    destruct (decide (x = c)) as [->|Hne].
    + rewrite lookup_alter_eq.
      destruct (decide (c ∈ l)) as [H|_]; [contradiction|].
      destruct (decide (c ∈ c :: l)) as [_|H]; [reflexivity|].
      exfalso. apply H, Hcons. now left.
    + rewrite lookup_alter_ne by congruence.
      destruct (decide (x ∈ l)) as [H|H]; destruct (decide (x ∈ c :: l)) as [G|G];
        try reflexivity; exfalso.
      * apply G, Hcons. now right.
      * apply Hcons in G as [G|G]; [contradiction | exact (H G)].
Qed.

Lemma terminate_all_frame l : forall srv,
  _clients (foldl (fun v c => Accept.terminate_client c v) srv l) = _clients srv /\
  _namesToClients (foldl (fun v c => Accept.terminate_client c v) srv l) =
    _namesToClients srv /\
  _clientsToRemove (foldl (fun v c => Accept.terminate_client c v) srv l) =
    _clientsToRemove srv /\
  cout (foldl (fun v c => Accept.terminate_client c v) srv l) = cout srv.
Proof.
  induction l as [|c l IH]; intros srv; [now repeat split|].
  cbn [foldl]. destruct (IH (Accept.terminate_client c srv)) as (-> & -> & -> & ->).
  now repeat split.
Qed.

Lemma shutdown_lookup srv x :
  heap (shutdown srv) !! x =
    if decide (x ∈ _clients srv)
    then (fun s => snd (fetch_or READER_TERMINATION_REQUESTED s)) <$> heap srv !! x
    else heap srv !! x.
Proof.
  unfold shutdown. cbn [heap with_terminating].
  rewrite terminate_all_lookup by apply NoDup_elements.
  destruct (decide (x ∈ elements (_clients srv))) as [H|H];
    destruct (decide (x ∈ _clients srv)) as [G|G]; try reflexivity; exfalso.
  - apply G. now apply elem_of_elements.
  - apply H. now apply elem_of_elements.
Qed.

(** X15: [shutdown] sets the flag of the server and the termination flag
    of every session of the live-set, and nothing else: the other bits of
    the sessions, their names and queues, the sessions outside the
    live-set, the live-set, the name map and the reclamation queue are as
    before.  A second [shutdown] changes nothing any more. *)
Theorem shutdown_flags_every_live_session srv x :
  _isTerminating (shutdown srv) = true /\
  (x ∈ _clients srv ->
   heap (shutdown srv) !! x =
     (fun s => with_state (Z.lor (_state s) READER_TERMINATION_REQUESTED) s)
       <$> heap srv !! x) /\
  (x ∉ _clients srv -> heap (shutdown srv) !! x = heap srv !! x) /\
  _clients (shutdown srv) = _clients srv /\
  _namesToClients (shutdown srv) = _namesToClients srv /\
  _clientsToRemove (shutdown srv) = _clientsToRemove srv /\
  shutdown (shutdown srv) = shutdown srv.
Proof.
  destruct (terminate_all_frame (elements (_clients srv)) srv) as (Hc & Hn & Hq & Ho).
  assert (Hc' : _clients (shutdown srv) = _clients srv) by exact Hc.
  split; [reflexivity|]. split; [|split].
  - intros Hx. rewrite shutdown_lookup. now rewrite decide_True by exact Hx.
  - intros Hx. rewrite shutdown_lookup. now rewrite decide_False by exact Hx.
  - split; [exact Hc|]. split; [exact Hn|]. split; [exact Hq|].
    destruct (terminate_all_frame (elements (_clients (shutdown srv))) (shutdown srv))
      as (Gc & Gn & Gq & Go).
    assert (Hh : heap (shutdown (shutdown srv)) = heap (shutdown srv)).
    { apply map_eq. intros y. rewrite (shutdown_lookup (shutdown srv)), Hc'.
      destruct (decide (y ∈ _clients srv)) as [Hy|Hy]; [|reflexivity].
      rewrite shutdown_lookup, decide_True by exact Hy.
      destruct (heap srv !! y) as [s|]; [|reflexivity]. cbn.
      unfold with_state. cbn. now rewrite lor_idem. }
    unfold shutdown in *. 
    destruct (foldl _ (with_terminating true (foldl _ srv _)) _) as [h1 c1 n1 q1 t1 o1] eqn:E1.
    destruct (foldl _ srv _) as [h0 c0 n0 q0 t0 o0] eqn:E0.
    cbn in *. subst. reflexivity.
Qed.

Lemma shutdown_flags_every_live_session_witness :
  (1%nat ∈ _clients alice_and_bob) /\
  (_state <$> heap (shutdown alice_and_bob) !! 1%nat) = Some READER_TERMINATION_REQUESTED.
Proof.
  assert (Hx : 1%nat ∈ _clients alice_and_bob) by (vm_compute; reflexivity).
  split; [exact Hx|].
  rewrite (proj1 (proj2 (shutdown_flags_every_live_session alice_and_bob 1%nat)) Hx).
  vm_compute. reflexivity.
Defined.
